(** * Bouncing balls: the 2D elastic-collision kernel

    A shallow embedding of the physics kernel of the bouncing-balls demo
    (vector arithmetic, the quadratic solver, boundary reflection, overlap
    correction and collision resolution), in exact real arithmetic.

    JavaScript numbers are modelled by the reals of the Standard Library.
    A division whose divisor is zero does not raise in JavaScript: it
    yields NaN, Infinity or -Infinity.  Such a value is modelled by [None]
    in the type [number]; every operation the kernel applies to one of
    them (sum, difference, product, division by a real) yields one again,
    and the test [-1 < t && t < 1] is false on all three. *)

From Stdlib Require Import Reals Lra Lia ZArith String List Bool DecimalString.
Import ListNotations.

Open Scope R_scope.

(** ** Numbers *)

Definition number : Type := option R.

(** [p / q] of JavaScript, on reals. *)
Definition div (p q : R) : number :=
  if Req_dec_T q 0 then None else Some (p / q).

Definition add (p q : number) : number :=
  match p, q with
  | Some u, Some v => Some (u + v)
  | _, _ => None
  end.

Definition sub (p q : number) : number :=
  match p, q with
  | Some u, Some v => Some (u - v)
  | _, _ => None
  end.

(** [p < q] of JavaScript, on reals. *)
Definition ltb (p q : R) : bool := if Rlt_dec p q then true else false.

(** [p >= q] and [p <= q] of JavaScript, on reals. *)
Definition geb (p q : R) : bool := if Rge_dec p q then true else false.
Definition leb (p q : R) : bool := if Rle_dec p q then true else false.

(** Sequencing of computations that may leave the reals. *)
Notation "'let?' v ':=' e 'in' k" :=
  (match e with Some v => k | None => None end)
  (at level 10, v pattern, e at level 100, k at level 200, only parsing).

(** ** class Vector2d *)

Module Vector2d.

Record t : Type := mk { x : R; y : R }.

Definition innerProduct (this vector : t) : R :=
  x this * x vector + y this * y vector.

Definition magnitudeSquare (this : t) : R := innerProduct this this.

Definition norm (this : t) : R := sqrt (magnitudeSquare this).

(** Both components are divided by the norm; the result is a vector of
    reals unless the norm is zero. *)
Definition normalize (this : t) : option t :=
  let norm := norm this in
  let? nx := div (x this) norm in
  let? ny := div (y this) norm in
  Some (mk nx ny).

Definition negate (this : t) : t := mk (- x this) (- y this).

Definition scaleBy (this : t) (scalar : R) : t :=
  mk (x this * scalar) (y this * scalar).

Definition add (this vector : t) : t :=
  mk (x this + x vector) (y this + y vector).

(** In-place forms: the value returned is the new state of the receiver. *)
Definition addAssign (this vector : t) : t :=
  mk (x this + x vector) (y this + y vector).

Definition minus (this vector : t) : t := add this (negate vector).

Definition minusAssign (this vector : t) : t :=
  mk (x this - x vector) (y this - y vector).

Definition distanceTo (this vector : t) : R := norm (minus this vector).

End Vector2d.

(** ** class QuadraticEquation *)

Module QuadraticEquation.

(** a x^2 + b x + c = 0 *)
Record t : Type := mk { a : R; b : R; c : R }.

Definition delta (this : t) : R := b this ^ 2 - 4 * a this * c this.

Definition numberOfRealRoots (this : t) : nat :=
  let delta := delta this in
  if ltb delta 0 then 0%nat
  else if Req_dec_T delta 0 then 1%nat
  else 2%nat.

Definition realRootsExist (this : t) : bool := geb (delta this) 0.

Definition roots (this : t) : list number :=
  let rootNum := numberOfRealRoots this in
  if Nat.eqb rootNum 0 then []
  else
    let aa := 2 * a this in
    let firstTerm := div (- b this) aa in
    if Nat.eqb rootNum 1 then [firstTerm]
    else
      let delta := delta this in
      let lastTerm := div (sqrt delta) aa in
      [add firstTerm lastTerm; sub firstTerm lastTerm].

End QuadraticEquation.

(** ** The physics engine *)

(** interface MassPoint *)
Class MassPoint (B : Type) : Type := {
  getMass : B -> R;
  getMomentum : B -> Vector2d.t;
  getKineticEnergy : B -> R
}.

(** The order of the parameters affects the result. *)
Definition getCollisionScaleFactor {B : Type} `{MassPoint B} (b1 b2 : B)
  : number :=
  div (2 * getMass b2) (getMass b1 + getMass b2).

(** ** class Ball *)

Module Ball.

Record t : Type := mk {
  position : Vector2d.t;
  velocity : Vector2d.t;
  color : string;
  radius : R;
  coefficientOfMass : R
}.

(** The constructor. *)
Definition new (x y velocityX velocityY : R) (color : string) (radius : R)
  : t :=
  mk (Vector2d.mk x y) (Vector2d.mk velocityX velocityY) color radius 10.

(** [Ball.copy]: the ball is serialised and parsed back, which keeps real
    numbers and strings as they are, and a new ball is constructed from
    the position, velocity, colour and radius read back. *)
Definition copy (ball : t) : t :=
  let temp := ball in
  new (Vector2d.x (position temp)) (Vector2d.y (position temp))
      (Vector2d.x (velocity temp)) (Vector2d.y (velocity temp))
      (color temp) (radius temp).

Definition set_position (this : t) (p : Vector2d.t) : t :=
  mk p (velocity this) (color this) (radius this) (coefficientOfMass this).

Definition set_velocity (this : t) (v : Vector2d.t) : t :=
  mk (position this) v (color this) (radius this) (coefficientOfMass this).

Definition set_color (this : t) (c : string) : t :=
  mk (position this) (velocity this) c (radius this) (coefficientOfMass this).

(** mass = k * PI * r^2 *)
Definition getMass (this : t) : R :=
  coefficientOfMass this * PI * radius this ^ 2.

Definition getMomentum (this : t) : Vector2d.t :=
  Vector2d.scaleBy (velocity this) (getMass this).

Definition getKineticEnergy (this : t) : R :=
  Vector2d.magnitudeSquare (velocity this) * getMass this / 2.

(** class Ball implements PhysicalBody *)
#[global] Instance massPoint : MassPoint t :=
  Build_MassPoint t getMass getMomentum getKineticEnergy.

(** [update], in a canvas of the given width and height. *)
Definition update (width height : R) (this : t) : t :=
  let px := Vector2d.x (position this) in
  let py := Vector2d.y (position this) in
  let this :=
    if geb (px + radius this) width || leb (px + radius this) 0
    then set_velocity this
           (Vector2d.mk (- Vector2d.x (velocity this))
                        (Vector2d.y (velocity this)))
    else this in
  let this :=
    if geb (py + radius this) height || leb (py + radius this) 0
    then set_velocity this
           (Vector2d.mk (Vector2d.x (velocity this))
                        (- Vector2d.y (velocity this)))
    else this in
  set_position this (Vector2d.addAssign (position this) (velocity this)).

(** [this.collideBy(ball)]: the states of [this] and of [ball] after the
    call. *)
Definition collideBy (this ball : t) : option (t * t) :=
  let diffPos := Vector2d.minus (position this) (position ball) in
  let diffVel := Vector2d.minus (velocity this) (velocity ball) in
  let? csf := getCollisionScaleFactor this ball in
  let? direction := Vector2d.normalize diffPos in
  let? scalar :=
    div (csf * Vector2d.innerProduct diffPos diffVel) (Vector2d.norm diffPos)
  in
  Some (set_velocity this
          (Vector2d.minusAssign (velocity this)
             (Vector2d.scaleBy direction scalar)),
        ball).

End Ball.

(** The quadratic that [deoverlap] builds from the two balls it is given
    once they are rewound. *)
Definition overlapEquation (b1 b2 : Ball.t) : QuadraticEquation.t :=
  let dx := Vector2d.minus (Ball.position b1) (Ball.position b2) in
  let dv := Vector2d.minus (Ball.velocity b1) (Ball.velocity b2) in
  QuadraticEquation.mk
    (Vector2d.magnitudeSquare dv)
    (Vector2d.innerProduct dx dv)
    (Vector2d.magnitudeSquare dx - (Ball.radius b1 + Ball.radius b2)).

(** One turn of the loop over the roots in [deoverlap]. *)
Definition applyRoot (bs : Ball.t * Ball.t) (root : number)
  : Ball.t * Ball.t :=
  let '(b1, b2) := bs in
  match root with
  | Some root =>
      if ltb (-1) root && ltb root 1 then
        (Ball.set_position b1
           (Vector2d.addAssign (Ball.position b1)
              (Vector2d.scaleBy (Ball.velocity b1) root)),
         Ball.set_position b2
           (Vector2d.addAssign (Ball.position b2)
              (Vector2d.scaleBy (Ball.velocity b2) root)))
      else (b1, b2)
  | None => (b1, b2)
  end.

(** [deoverlap(b1, b2)]: the states of the two balls after the call. *)
Definition deoverlap (b1 b2 : Ball.t) : Ball.t * Ball.t :=
  (* x1 = x1' - v1*t, t = 1 *)
  let b1 :=
    Ball.set_position b1
      (Vector2d.minusAssign (Ball.position b1) (Ball.velocity b1)) in
  let b2 :=
    Ball.set_position b2
      (Vector2d.minusAssign (Ball.position b2) (Ball.velocity b2)) in
  let qe := overlapEquation b1 b2 in
  let roots := QuadraticEquation.roots qe in
  fold_left applyRoot roots (b1, b2).

(** [collide(b1, b2)]: the states of the two balls after the call. *)
Definition collide (b1 b2 : Ball.t) : option (Ball.t * Ball.t) :=
  let temp := Ball.copy b1 in
  let? (b1, b2) := Ball.collideBy b1 b2 in
  let? (b2, _) := Ball.collideBy b2 temp in
  Some (b1, b2).

(** The body of the loop of [collisionDetect] for one [ball] that is not
    [this]; [rgb] is the colour that [randomRGB()] returns. *)
Definition collisionDetectWith (rgb : string) (this ball : Ball.t)
  : option (Ball.t * Ball.t) :=
  let distance :=
    Vector2d.distanceTo (Ball.position this) (Ball.position ball) in
  if ltb distance (Ball.radius this + Ball.radius ball) then
    let '(this, ball) := deoverlap this ball in
    let? (this, ball) := collide this ball in
    Some (Ball.set_color this rgb, Ball.set_color ball rgb)
  else Some (this, ball).

(** ** The balls of the program *)

(** The array [balls]: a ball is identified by its index. *)
Definition World : Type := list Ball.t.

(** The state of the array once the ball at index [i] has become [b]. *)
Fixpoint replaceAt (balls : World) (i : nat) (b : Ball.t) : World :=
  match balls, i with
  | [], _ => []
  | _ :: rest, O => b :: rest
  | first :: rest, S i => first :: replaceAt rest i b
  end.

(** One turn of the loop of [collisionDetect], for the ball at index
    [other]; [rgb other] is the colour that [randomRGB()] returns if it is
    called in this turn. *)
Definition collisionDetectTurn (rgb : nat -> string) (this : nat)
  (state : option World) (other : nat) : option World :=
  let? balls := state in
  if Nat.eqb this other then Some balls
  else
    match nth_error balls this, nth_error balls other with
    | Some b1, Some b2 =>
        let? (b1, b2) := collisionDetectWith (rgb other) b1 b2 in
        Some (replaceAt (replaceAt balls this b1) other b2)
    | _, _ => Some balls
    end.

(** [balls[this].collisionDetect()]: the array after the call. *)
Definition collisionDetect (rgb : nat -> string) (this : nat) (balls : World)
  : option World :=
  fold_left (collisionDetectTurn rgb this) (seq 0 (length balls)) (Some balls).



(** ** Random numbers and the initial balls *)

(** [random(min, max)] on integers, where [u] is the value that
    [Math.random()] returns. *)
Definition random (u : R) (min max : Z) : Z :=
  (Zfloor (u * IZR (max - min + 1)) + min)%Z.

(** [randomRGB()], from the three values that [Math.random()] returns. *)
Definition randomRGB (u1 u2 u3 : R) : string :=
  ("rgb(" ++ NilZero.string_of_int (Z.to_int (random u1 0 255)) ++ ","
   ++ NilZero.string_of_int (Z.to_int (random u2 0 255)) ++ ","
   ++ NilZero.string_of_int (Z.to_int (random u3 0 255)) ++ ")")%string.

(** The ball that one turn of the loop of [initializeBalls] builds, in a
    canvas of the given width and height; [rnd k] is the value of the
    k-th call of [Math.random()] in this turn. *)
Definition randomBall (rnd : nat -> R) (width height : Z) : Ball.t :=
  let size := random (rnd 0%nat) 10 20 in
  let x := random (rnd 1%nat) (0 + size) (width - size) in
  let y := random (rnd 2%nat) (0 + size) (height - size) in
  let velocityX := random (rnd 3%nat) (-7) 7 in
  let velocityY := random (rnd 4%nat) (-7) 7 in
  let color := randomRGB (rnd 5%nat) (rnd 6%nat) (rnd 7%nat) in
  Ball.new (IZR x) (IZR y) (IZR velocityX) (IZR velocityY) color (IZR size).

(** The loop of [initializeBalls], with a bound on its turns. *)
Fixpoint initializeBallsFrom (turns : nat) (rnd : nat -> R)
  (width height : Z) (balls : World) : World :=
  match turns with
  | O => balls
  | S turns =>
      if Nat.ltb (length balls) 25 then
        initializeBallsFrom turns (fun k => rnd (8 + k)%nat) width height
          (balls ++ [randomBall rnd width height])
      else balls
  end.

(** [initializeBalls()], on the empty array. *)
Definition initializeBalls (rnd : nat -> R) (width height : Z) : World :=
  initializeBallsFrom 25 rnd width height [].

(** ** Auxiliary notions used in the statements *)

(** The balls the program creates: built by the constructor, which sets
    the mass coefficient to 10, with a positive radius (the radii drawn by
    [initializeBalls] lie between 10 and 20). *)
Definition live (b : Ball.t) : Prop :=
  0 < Ball.radius b /\ Ball.coefficientOfMass b = 10.

(** A ball taken back by one tick of its current velocity. *)
Definition rewind (b : Ball.t) : Ball.t :=
  Ball.set_position b
    (Vector2d.minusAssign (Ball.position b) (Ball.velocity b)).

(** A ball moved by [t] ticks of its current velocity. *)
Definition advance (t : R) (b : Ball.t) : Ball.t :=
  Ball.set_position b
    (Vector2d.addAssign (Ball.position b)
       (Vector2d.scaleBy (Ball.velocity b) t)).

(** The velocity update of the specification, in its words:
    scaleFactor = 2 mass(other) / (mass(self) + mass(other)),
    diffPos = pos(self) - pos(other), diffVel = vel(self) - vel(other),
    vel(self) -= normalize(diffPos) scaleFactor (diffPos . diffVel) / |diffPos|. *)
Definition elasticVelocity (self other : Ball.t) : Vector2d.t :=
  let scaleFactor :=
    2 * Ball.getMass other / (Ball.getMass self + Ball.getMass other) in
  let dpx := Vector2d.x (Ball.position self) - Vector2d.x (Ball.position other) in
  let dpy := Vector2d.y (Ball.position self) - Vector2d.y (Ball.position other) in
  let dvx := Vector2d.x (Ball.velocity self) - Vector2d.x (Ball.velocity other) in
  let dvy := Vector2d.y (Ball.velocity self) - Vector2d.y (Ball.velocity other) in
  let len := sqrt (dpx * dpx + dpy * dpy) in
  let k := scaleFactor * (dpx * dvx + dpy * dvy) / len in
  Vector2d.mk (Vector2d.x (Ball.velocity self) - dpx / len * k)
              (Vector2d.y (Ball.velocity self) - dpy / len * k).

(** The quadratic of the specification for two rewound balls, in its
    words: coefficients |dv|^2, dx . dv and |dx|^2 - (r1 + r2)^2. *)
Definition specOverlapEquation (b1 b2 : Ball.t) : QuadraticEquation.t :=
  let dx := Vector2d.minus (Ball.position b1) (Ball.position b2) in
  let dv := Vector2d.minus (Ball.velocity b1) (Ball.velocity b2) in
  QuadraticEquation.mk
    (Vector2d.magnitudeSquare dv)
    (Vector2d.innerProduct dx dv)
    (Vector2d.magnitudeSquare dx - (Ball.radius b1 + Ball.radius b2) ^ 2).

(** The update of [collideBy] with its two divisions by |diffPos| merged
    into one division by |diffPos|^2. *)
Definition impulseVelocity (self other : Ball.t) : Vector2d.t :=
  let dpx := Vector2d.x (Ball.position self) - Vector2d.x (Ball.position other) in
  let dpy := Vector2d.y (Ball.position self) - Vector2d.y (Ball.position other) in
  let dvx := Vector2d.x (Ball.velocity self) - Vector2d.x (Ball.velocity other) in
  let dvy := Vector2d.y (Ball.velocity self) - Vector2d.y (Ball.velocity other) in
  let j :=
    2 * Ball.getMass other / (Ball.getMass self + Ball.getMass other)
    * (dpx * dvx + dpy * dvy) / (dpx * dpx + dpy * dpy) in
  Vector2d.mk (Vector2d.x (Ball.velocity self) - j * dpx)
              (Vector2d.y (Ball.velocity self) - j * dpy).


(** The sum of the finite roots that the loop of [deoverlap] accepts. *)
Definition acceptedSum (roots : list number) : R :=
  fold_right
    (fun root acc =>
       match root with
       | Some t => if ltb (-1) t && ltb t 1 then t + acc else acc
       | None => acc
       end) 0 roots.

(** What a resolved collision keeps: the radius and mass coefficient of
    each ball, the sum of the two momenta and the sum of the two kinetic
    energies. *)
Definition pairConserved (b1 b2 c1 c2 : Ball.t) : Prop :=
  Ball.radius c1 = Ball.radius b1
  /\ Ball.radius c2 = Ball.radius b2
  /\ Ball.coefficientOfMass c1 = Ball.coefficientOfMass b1
  /\ Ball.coefficientOfMass c2 = Ball.coefficientOfMass b2
  /\ Vector2d.add (getMomentum c1) (getMomentum c2)
     = Vector2d.add (getMomentum b1) (getMomentum b2)
  /\ getKineticEnergy c1 + getKineticEnergy c2
     = getKineticEnergy b1 + getKineticEnergy b2.


(** A ball as [initializeBalls] means to draw it in a canvas of the given
    size: radius between 10 and 20, wholly inside the canvas, and each
    velocity component between -7 and 7. *)
Definition wellPlaced (width height : Z) (b : Ball.t) : Prop :=
  live b
  /\ 10 <= Ball.radius b <= 20
  /\ 0 <= Vector2d.x (Ball.position b) - Ball.radius b
  /\ Vector2d.x (Ball.position b) + Ball.radius b <= IZR width
  /\ 0 <= Vector2d.y (Ball.position b) - Ball.radius b
  /\ Vector2d.y (Ball.position b) + Ball.radius b <= IZR height
  /\ -7 <= Vector2d.x (Ball.velocity b) <= 7
  /\ -7 <= Vector2d.y (Ball.velocity b) <= 7.

(** ** Sample balls *)

(** Two balls of radius 10 in contact on a horizontal line, moving
    towards each other. *)
Definition leftBall : Ball.t := Ball.new 0 0 5 0 "rgb(255,0,0)" 10.
Definition rightBall : Ball.t := Ball.new 20 0 (-5) 0 "rgb(0,0,255)" 10.

(** A ball of radius 2 that has just moved right by (1, 0) to (-1, 0),
    into a ball of radius 5/4 at rest at the origin. *)
Definition slowBall : Ball.t := Ball.new (-1) 0 1 0 "rgb(0,128,0)" 2.
Definition stillBall : Ball.t := Ball.new 0 0 0 0 "rgb(128,128,128)" (5 / 4).

(** Two balls of radius 1 at distance 1: the first has just moved right
    by (1, 0); the second is at rest, or moves along with the first. *)
Definition movingBall : Ball.t := Ball.new 0 0 1 0 "rgb(255,255,0)" 1.
Definition restingBall : Ball.t := Ball.new 1 0 0 0 "rgb(0,255,255)" 1.
Definition escortBall : Ball.t := Ball.new 1 0 1 0 "rgb(255,0,255)" 1.

(** A ball of radius 2 moving right, within one tick of the right edge of
    a canvas 1000 wide; and the same ball once its edge is past it. *)
Definition nearEdgeBall : Ball.t := Ball.new 995 500 10 0 "rgb(0,0,0)" 2.
Definition pastEdgeBall : Ball.t := Ball.new 999 500 10 0 "rgb(0,0,0)" 2.

(** A ball of radius 10 moving left, whose left edge is already across
    x = 0. *)
Definition leftEdgeBall : Ball.t := Ball.new 5 500 (-3) 0 "rgb(9,9,9)" 10.

(** A ball of radius 1 that has just moved right by (1, 0) to (1, 1),
    past a ball of radius 9/16 at rest at the origin. *)
Definition passingBall : Ball.t := Ball.new 1 1 1 0 "rgb(10,20,30)" 1.
Definition smallBall : Ball.t := Ball.new 0 0 0 0 "rgb(30,20,10)" (9 / 16).

(** * Properties *)

(** ** Tactics *)

(** Unfolding of the kernel down to real arithmetic. *)
Ltac kernel_arith :=
  cbv [overlapEquation specOverlapEquation rewind advance
       Ball.new Ball.set_position Ball.set_velocity Ball.set_color
       Ball.position Ball.velocity Ball.radius Ball.color
       Ball.coefficientOfMass
       Vector2d.x Vector2d.y Vector2d.innerProduct Vector2d.magnitudeSquare
       Vector2d.norm Vector2d.distanceTo Vector2d.minus Vector2d.add
       Vector2d.negate Vector2d.scaleBy Vector2d.addAssign
       Vector2d.minusAssign
       QuadraticEquation.a QuadraticEquation.b QuadraticEquation.c
       QuadraticEquation.delta pow fst snd fold_left
       slowBall stillBall movingBall restingBall escortBall
       leftBall rightBall nearEdgeBall pastEdgeBall leftEdgeBall].

Ltac real_arith := try lra; try (field; lra); try (field_simplify; lra).

(** ** Numbers *)

Lemma div_nonzero (p q : R) : q <> 0 -> div p q = Some (p / q).
Proof.
  intros Hq. unfold div. destruct (Req_dec_T q 0) as [E | _]; [contradiction | reflexivity].
Qed.

Lemma div_zero (p : R) : div p 0 = None.
Proof.
  unfold div. destruct (Req_dec_T 0 0) as [_ | N]; [reflexivity | now elim N].
Qed.

Lemma ltb_lt (p q : R) : ltb p q = true <-> p < q.
Proof.
  unfold ltb. destruct (Rlt_dec p q); split; intros; try easy.
Qed.

Lemma ltb_nlt (p q : R) : ltb p q = false <-> ~ p < q.
Proof.
  unfold ltb. destruct (Rlt_dec p q); split; intros; try easy.
Qed.

Lemma geb_ge (p q : R) : geb p q = true <-> p >= q.
Proof.
  unfold geb. destruct (Rge_dec p q); split; intros; try easy.
Qed.

Lemma leb_le (p q : R) : leb p q = true <-> p <= q.
Proof.
  unfold leb. destruct (Rle_dec p q); split; intros; try easy.
Qed.

Lemma geb_nge (p q : R) : geb p q = false <-> ~ p >= q.
Proof.
  unfold geb. destruct (Rge_dec p q); split; intros; try easy.
Qed.

Lemma leb_nle (p q : R) : leb p q = false <-> ~ p <= q.
Proof.
  unfold leb. destruct (Rle_dec p q); split; intros; try easy.
Qed.

(** ** The quadratic solver *)

Section Quadratic.

Import QuadraticEquation.

Lemma numberOfRealRoots_neg (q : t) :
  delta q < 0 -> numberOfRealRoots q = 0%nat.
Proof.
  intros H. unfold numberOfRealRoots.
  now rewrite (proj2 (ltb_lt _ _) H).
Qed.

Lemma numberOfRealRoots_zero (q : t) :
  delta q = 0 -> numberOfRealRoots q = 1%nat.
Proof.
  intros H. unfold numberOfRealRoots.
  rewrite (proj2 (ltb_nlt _ _)) by lra.
  destruct (Req_dec_T (delta q) 0); [reflexivity | contradiction].
Qed.

Lemma numberOfRealRoots_pos (q : t) :
  ~ delta q < 0 -> delta q <> 0 -> numberOfRealRoots q = 2%nat.
Proof.
  intros H1 H2. unfold numberOfRealRoots.
  rewrite (proj2 (ltb_nlt _ _) H1).
  destruct (Req_dec_T (delta q) 0); [contradiction | reflexivity].
Qed.

Lemma roots_neg (q : t) : delta q < 0 -> roots q = [].
Proof.
  intros H. unfold roots. now rewrite numberOfRealRoots_neg.
Qed.

Lemma roots_zero (q : t) :
  delta q = 0 -> roots q = [div (- b q) (2 * a q)].
Proof.
  intros H. unfold roots. now rewrite numberOfRealRoots_zero.
Qed.

Lemma roots_pos (q : t) :
  ~ delta q < 0 -> delta q <> 0 ->
  roots q =
    [add (div (- b q) (2 * a q)) (div (sqrt (delta q)) (2 * a q));
     sub (div (- b q) (2 * a q)) (div (sqrt (delta q)) (2 * a q))].
Proof.
  intros H1 H2. unfold roots. now rewrite numberOfRealRoots_pos.
Qed.

Lemma length_roots (q : t) : length (roots q) = numberOfRealRoots q.
Proof.
  unfold roots.
  destruct (numberOfRealRoots q) as [ | [ | n]] eqn:E; simpl; try reflexivity.
  unfold numberOfRealRoots in E.
  destruct (ltb (delta q) 0); [discriminate | ].
  destruct (Req_dec_T (delta q) 0); [discriminate | congruence].
Qed.

(** C6: for a quadratic with a <> 0, [numberOfRealRoots] is 0, 1 or 2
    as delta = b^2 - 4ac is negative, zero or neither; [roots] returns
    that many values; with two roots they are firstTerm + lastTerm and
    firstTerm - lastTerm, in this order, for firstTerm = -b / 2a and
    lastTerm = sqrt delta / 2a; and (1, 0, -4) has the roots 2 and -2,
    (1, 2, 1) the root -1, and (1, 0, 1) none. *)
Theorem quadratic_roots (a b c : R) (Ha : a <> 0) :
  let q := mk a b c in
  let delta := b ^ 2 - 4 * a * c in
  let firstTerm := - b / (2 * a) in
  let lastTerm := sqrt delta / (2 * a) in
  (delta < 0 -> numberOfRealRoots q = 0%nat /\ roots q = [])
  /\ (delta = 0 -> numberOfRealRoots q = 1%nat /\ roots q = [Some firstTerm])
  /\ (~ delta < 0 -> delta <> 0 ->
      numberOfRealRoots q = 2%nat
      /\ roots q = [Some (firstTerm + lastTerm); Some (firstTerm - lastTerm)])
  /\ length (roots q) = numberOfRealRoots q
  /\ (numberOfRealRoots (mk 1 0 (-4)) = 2%nat
      /\ roots (mk 1 0 (-4)) = [Some 2; Some (-2)])
  /\ (numberOfRealRoots (mk 1 2 1) = 1%nat
      /\ roots (mk 1 2 1) = [Some (-1)])
  /\ (numberOfRealRoots (mk 1 0 1) = 0%nat
      /\ roots (mk 1 0 1) = []).
Proof.
  intros q dlt firstTerm lastTerm.
  assert (Haa : 2 * a <> 0) by lra.
  repeat split.
  - apply numberOfRealRoots_neg; assumption.
  - apply roots_neg; assumption.
  - apply numberOfRealRoots_zero; assumption.
  - rewrite roots_zero by assumption. simpl. now rewrite div_nonzero.
  - apply numberOfRealRoots_pos; assumption.
  - rewrite roots_pos by assumption. simpl. now rewrite !div_nonzero.
  - apply length_roots.
  - apply numberOfRealRoots_pos; unfold delta; simpl; lra.
  - rewrite roots_pos by (unfold delta; simpl; lra).
    unfold delta; simpl. rewrite !div_nonzero by lra. simpl.
    replace (0 * (0 * 1) - 4 * 1 * -4) with (4 * 4) by lra.
    rewrite sqrt_square by lra. do 2 f_equal; [ | f_equal]; f_equal; lra.
  - apply numberOfRealRoots_zero; unfold delta; simpl; lra.
  - rewrite roots_zero by (unfold delta; simpl; lra).
    simpl. rewrite div_nonzero by lra. do 2 f_equal; lra.
  - apply numberOfRealRoots_neg; unfold delta; simpl; lra.
  - apply roots_neg; unfold delta; simpl; lra.
Qed.

Lemma quadratic_roots_witness :
  let q := mk 1 0 (-4) in
  numberOfRealRoots q = 2%nat /\ roots q = [Some 2; Some (-2)].
Proof.
  assert (H : (1 : R) <> 0) by lra.
  exact (proj1 (proj2 (proj2 (proj2 (proj2 (quadratic_roots 1 0 (-4) H)))))).
Defined.

End Quadratic.

(** ** Vectors *)

Section Vectors.

Import Vector2d.

Lemma magnitudeSquare_nonneg (v : t) : 0 <= magnitudeSquare v.
Proof.
  unfold magnitudeSquare, innerProduct. nra.
Qed.

Lemma norm_norm (v : t) : norm v * norm v = magnitudeSquare v.
Proof.
  unfold norm. apply sqrt_sqrt, magnitudeSquare_nonneg.
Qed.

Lemma minus_components (p q : t) :
  minus p q = mk (x p + - x q) (y p + - y q).
Proof. reflexivity. Qed.

Lemma norm_minus_pos (p q : t) : p <> q -> 0 < norm (minus p q).
Proof.
  intros Hpq. unfold norm. apply sqrt_lt_R0.
  unfold magnitudeSquare, innerProduct. simpl.
  destruct p as [px py], q as [qx qy]. simpl.
  destruct (Req_dec_T px qx) as [Ex | Nx].
  - destruct (Req_dec_T py qy) as [Ey | Ny].
    + subst. now elim Hpq.
    + pose proof (Rle_0_sqr (px + - qx)) as Hx.
      assert (Hy : 0 < Rsqr (py + - qy)) by (apply Rsqr_pos_lt; lra).
      unfold Rsqr in Hx, Hy. lra.
  - pose proof (Rle_0_sqr (py + - qy)) as Hy.
    assert (Hx : 0 < Rsqr (px + - qx)) by (apply Rsqr_pos_lt; lra).
    unfold Rsqr in Hx, Hy. lra.
Qed.

(** The distance between two points does not depend on their order. *)
Lemma norm_minus_sym (p q : t) : norm (minus p q) = norm (minus q p).
Proof.
  unfold norm, magnitudeSquare, innerProduct. simpl. f_equal. ring.
Qed.

Lemma normalize_nonzero (v : t) :
  norm v <> 0 -> normalize v = Some (mk (x v / norm v) (y v / norm v)).
Proof.
  intros H. unfold normalize. now rewrite !div_nonzero.
Qed.

End Vectors.

(** ** Collision resolution *)

Section Collision.

Lemma live_mass_pos (b : Ball.t) : live b -> 0 < Ball.getMass b.
Proof.
  intros [Hr Hk]. unfold Ball.getMass. rewrite Hk.
  pose proof PI_RGT_0 as Hpi.
  assert (0 < Ball.radius b ^ 2) by (apply pow_lt; assumption).
  apply Rmult_lt_0_compat; [lra | assumption].
Qed.

Lemma live_mass_sum (b1 b2 : Ball.t) :
  live b1 -> live b2 -> Ball.getMass b1 + Ball.getMass b2 <> 0.
Proof.
  intros H1 H2.
  pose proof (live_mass_pos b1 H1). pose proof (live_mass_pos b2 H2). lra.
Qed.

(** The copy is the ball itself when the ball has the mass coefficient
    that the constructor sets. *)
Lemma copy_constructed (b : Ball.t) :
  Ball.coefficientOfMass b = 10 -> Ball.copy b = b.
Proof.
  intros Hk. destruct b as [[px py] [vx vy] col r k]. simpl in Hk. subst k.
  reflexivity.
Qed.

Lemma getMass_copy (b : Ball.t) :
  Ball.coefficientOfMass b = 10 -> Ball.getMass (Ball.copy b) = Ball.getMass b.
Proof.
  intros Hk. now rewrite copy_constructed.
Qed.

(** [collideBy] computes the update of the specification, on [this]
    alone, whenever none of its three divisions has a zero divisor. *)
Lemma collideBy_resolved (self other : Ball.t) :
  Ball.position self <> Ball.position other ->
  Ball.getMass self + Ball.getMass other <> 0 ->
  Ball.collideBy self other
  = Some (Ball.set_velocity self (elasticVelocity self other), other).
Proof.
  intros Hpos Hmass.
  pose proof (norm_minus_pos _ _ Hpos) as Hn.
  unfold Ball.collideBy, getCollisionScaleFactor. simpl.
  rewrite div_nonzero by assumption.
  rewrite normalize_nonzero by lra.
  rewrite div_nonzero by lra.
  unfold elasticVelocity, Vector2d.minusAssign, Vector2d.scaleBy,
    Vector2d.norm, Vector2d.magnitudeSquare, Vector2d.innerProduct.
  simpl. unfold Rminus. reflexivity.
Qed.

Lemma collide_resolved (b1 b2 : Ball.t) :
  live b1 -> live b2 -> Ball.position b1 <> Ball.position b2 ->
  collide b1 b2
  = Some (Ball.set_velocity b1 (elasticVelocity b1 b2),
          Ball.set_velocity b2 (elasticVelocity b2 b1)).
Proof.
  intros H1 H2 Hpos. unfold collide.
  rewrite collideBy_resolved by (auto using live_mass_sum).
  rewrite (copy_constructed b1) by apply H1.
  rewrite collideBy_resolved by (auto using live_mass_sum).
  reflexivity.
Qed.

Lemma separation_pos (p q : Vector2d.t) :
  p <> q ->
  0 < sqrt ((Vector2d.x p - Vector2d.x q) * (Vector2d.x p - Vector2d.x q)
            + (Vector2d.y p - Vector2d.y q) * (Vector2d.y p - Vector2d.y q)).
Proof.
  intros Hpq. exact (norm_minus_pos p q Hpq).
Qed.

(** C4: [collide] takes a copy of b1 that has every field of b1 before
    either ball is changed, and gives each side the velocity
    vel(self) - normalize(diffPos) scaleFactor (diffPos . diffVel) / |diffPos|
    with scaleFactor = 2 mass(other) / (mass(self) + mass(other)); the
    update of b2 is computed from b1 as it was before the call. *)
Theorem collide_uses_original_b1 (b1 b2 : Ball.t) :
  live b1 -> live b2 -> Ball.position b1 <> Ball.position b2 ->
  Ball.copy b1 = b1
  /\ collide b1 b2
     = Some (Ball.set_velocity b1 (elasticVelocity b1 b2),
             Ball.set_velocity b2 (elasticVelocity b2 b1)).
Proof.
  intros H1 H2 Hpos. split.
  - apply copy_constructed, H1.
  - now apply collide_resolved.
Qed.

(** C3: resolving a collision between two balls at distinct positions
    keeps the total momentum mass(b1) vel(b1) + mass(b2) vel(b2). *)
Theorem collide_conserves_momentum (b1 b2 : Ball.t) :
  live b1 -> live b2 -> Ball.position b1 <> Ball.position b2 ->
  exists b1' b2',
    collide b1 b2 = Some (b1', b2')
    /\ Vector2d.add (getMomentum b1') (getMomentum b2')
       = Vector2d.add (getMomentum b1) (getMomentum b2).
Proof.
  intros H1 H2 Hpos.
  exists (Ball.set_velocity b1 (elasticVelocity b1 b2)),
         (Ball.set_velocity b2 (elasticVelocity b2 b1)).
  split; [now apply collide_resolved | ].
  pose proof (live_mass_sum b1 b2 H1 H2) as Hm.
  pose proof (separation_pos _ _ Hpos) as Hlen.
  simpl. unfold elasticVelocity, Ball.getMomentum, Ball.getMass in *.
  destruct b1 as [[px1 py1] [vx1 vy1] col1 r1 k1].
  destruct b2 as [[px2 py2] [vx2 vy2] col2 r2 k2].
  simpl in *.
  set (m1 := k1 * PI * (r1 * (r1 * 1))) in *.
  set (m2 := k2 * PI * (r2 * (r2 * 1))) in *.
  replace ((px2 - px1) * (px2 - px1) + (py2 - py1) * (py2 - py1))
    with ((px1 - px2) * (px1 - px2) + (py1 - py2) * (py1 - py2)) by ring.
  set (len := sqrt _) in *.
  unfold Vector2d.add, Vector2d.scaleBy. simpl.
  f_equal; field; split; lra.
Qed.

Lemma live_leftBall : live leftBall.
Proof. split; simpl; lra. Defined.

Lemma live_rightBall : live rightBall.
Proof. split; simpl; lra. Defined.

Lemma leftBall_rightBall_apart : Ball.position leftBall <> Ball.position rightBall.
Proof. simpl. intros H. injection H as H. lra. Defined.

Lemma collide_uses_original_b1_witness :
  Ball.copy leftBall = leftBall
  /\ collide leftBall rightBall
     = Some (Ball.set_velocity leftBall (elasticVelocity leftBall rightBall),
             Ball.set_velocity rightBall (elasticVelocity rightBall leftBall)).
Proof.
  exact (collide_uses_original_b1 leftBall rightBall
           live_leftBall live_rightBall leftBall_rightBall_apart).
Defined.

Lemma collide_conserves_momentum_witness :
  exists b1' b2',
    collide leftBall rightBall = Some (b1', b2')
    /\ Vector2d.add (getMomentum b1') (getMomentum b2')
       = Vector2d.add (getMomentum leftBall) (getMomentum rightBall).
Proof.
  exact (collide_conserves_momentum leftBall rightBall
           live_leftBall live_rightBall leftBall_rightBall_apart).
Defined.

(** C5: two balls of equal mass and radius on a horizontal line, the
    first with velocity (5, 0) and the second with velocity (-5, 0),
    leave [collide] with their velocities exchanged. *)
Theorem head_on_collision_swaps_velocities (b1 b2 : Ball.t) :
  live b1 -> live b2 ->
  Ball.radius b1 = Ball.radius b2 ->
  Ball.velocity b1 = Vector2d.mk 5 0 ->
  Ball.velocity b2 = Vector2d.mk (-5) 0 ->
  Vector2d.y (Ball.position b1) = Vector2d.y (Ball.position b2) ->
  Vector2d.x (Ball.position b1) <> Vector2d.x (Ball.position b2) ->
  getMass b1 = getMass b2
  /\ collide b1 b2
     = Some (Ball.set_velocity b1 (Vector2d.mk (-5) 0),
             Ball.set_velocity b2 (Vector2d.mk 5 0)).
Proof.
  intros H1 H2 Hr Hv1 Hv2 Hy Hx.
  assert (Hpos : Ball.position b1 <> Ball.position b2) by congruence.
  assert (Hpos' : Ball.position b2 <> Ball.position b1) by congruence.
  assert (Hmass : Ball.getMass b1 = Ball.getMass b2).
  { unfold Ball.getMass. destruct H1 as [_ ->], H2 as [_ ->]. now rewrite Hr. }
  split; [exact Hmass | ].
  rewrite collide_resolved by assumption.
  pose proof (live_mass_pos b2 H2) as Hm.
  pose proof (separation_pos _ _ Hpos) as Hlen.
  pose proof (separation_pos _ _ Hpos') as Hlen'.
  unfold elasticVelocity. rewrite Hmass, Hv1, Hv2, Hy. simpl.
  rewrite Hy in Hlen, Hlen'.
  set (m := Ball.getMass b2) in *.
  set (d := Vector2d.x (Ball.position b1) - Vector2d.x (Ball.position b2)) in *.
  set (e := Vector2d.x (Ball.position b2) - Vector2d.x (Ball.position b1)) in *.
  set (py := Vector2d.y (Ball.position b2)) in *.
  set (len := sqrt (d * d + (py - py) * (py - py))) in *.
  set (len' := sqrt (e * e + (py - py) * (py - py))) in *.
  assert (Hd : d <> 0) by (unfold d; lra).
  assert (He : e <> 0) by (unfold e; lra).
  assert (Hsq : len * len = d * d + (py - py) * (py - py))
    by (apply sqrt_sqrt; nra).
  assert (Hsq' : len' * len' = e * e + (py - py) * (py - py))
    by (apply sqrt_sqrt; nra).
  assert (E1 : 5 - d / len * (2 * m / (m + m) * (d * (5 - -5) + (py - py) * (0 - 0)) / len)
               = 5 - 10 * (d * d) / (len * len)) by (field; lra).
  assert (E2 : 0 - (py - py) / len * (2 * m / (m + m) * (d * (5 - -5) + (py - py) * (0 - 0)) / len)
               = 0) by (field; lra).
  assert (E3 : -5 - e / len' * (2 * m / (m + m) * (e * (-5 - 5) + (py - py) * (0 - 0)) / len')
               = -5 + 10 * (e * e) / (len' * len')) by (field; lra).
  assert (E4 : 0 - (py - py) / len' * (2 * m / (m + m) * (e * (-5 - 5) + (py - py) * (0 - 0)) / len')
               = 0) by (field; lra).
  rewrite E1, E2, E3, E4, Hsq, Hsq'.
  replace (5 - 10 * (d * d) / (d * d + (py - py) * (py - py))) with (-5)
    by (field; nra).
  replace (-5 + 10 * (e * e) / (e * e + (py - py) * (py - py))) with 5
    by (field; nra).
  reflexivity.
Qed.

Lemma head_on_collision_swaps_velocities_witness :
  getMass leftBall = getMass rightBall
  /\ collide leftBall rightBall
     = Some (Ball.set_velocity leftBall (Vector2d.mk (-5) 0),
             Ball.set_velocity rightBall (Vector2d.mk 5 0)).
Proof.
  apply (head_on_collision_swaps_velocities leftBall rightBall
           live_leftBall live_rightBall);
    try reflexivity.
  simpl. lra.
Defined.

(** C10: [self.collideBy(other)], for balls at distinct positions,
    changes the velocity of [self] and nothing else: the position,
    radius, colour and mass coefficient of [self] and every field of
    [other] are as before. *)
Theorem collideBy_changes_only_own_velocity (self other : Ball.t) :
  Ball.position self <> Ball.position other ->
  getMass self + getMass other <> 0 ->
  exists self' other',
    Ball.collideBy self other = Some (self', other')
    /\ other' = other
    /\ Ball.position self' = Ball.position self
    /\ Ball.radius self' = Ball.radius self
    /\ Ball.color self' = Ball.color self
    /\ Ball.coefficientOfMass self' = Ball.coefficientOfMass self.
Proof.
  intros Hpos Hmass.
  exists (Ball.set_velocity self (elasticVelocity self other)), other.
  split; [now apply collideBy_resolved | ].
  repeat split.
Qed.

Lemma collideBy_changes_only_own_velocity_witness :
  exists self' other',
    Ball.collideBy leftBall rightBall = Some (self', other')
    /\ other' = rightBall
    /\ Ball.position self' = Ball.position leftBall
    /\ Ball.radius self' = Ball.radius leftBall
    /\ Ball.color self' = Ball.color leftBall
    /\ Ball.coefficientOfMass self' = Ball.coefficientOfMass leftBall.
Proof.
  apply (collideBy_changes_only_own_velocity leftBall rightBall
           leftBall_rightBall_apart).
  apply (live_mass_sum leftBall rightBall live_leftBall live_rightBall).
Defined.

End Collision.

(** ** Overlap correction *)

Section Overlap.

Lemma deoverlap_rewinds_first (b1 b2 : Ball.t) :
  deoverlap b1 b2
  = fold_left applyRoot
      (QuadraticEquation.roots (overlapEquation (rewind b1) (rewind b2)))
      (rewind b1, rewind b2).
Proof. reflexivity. Qed.

Lemma applyRoot_accepted (b1 b2 : Ball.t) (t : R) :
  -1 < t < 1 -> applyRoot (b1, b2) (Some t) = (advance t b1, advance t b2).
Proof.
  intros [Hlo Hhi]. unfold applyRoot.
  rewrite (proj2 (ltb_lt _ _) Hlo), (proj2 (ltb_lt _ _) Hhi). reflexivity.
Qed.

Lemma applyRoot_rejected (bs : Ball.t * Ball.t) (t : R) :
  ~ (-1 < t < 1) -> applyRoot bs (Some t) = bs.
Proof.
  intros Hout. destruct bs as [b1 b2]. unfold applyRoot.
  destruct (ltb (-1) t) eqn:Elo; [ | reflexivity].
  destruct (ltb t 1) eqn:Ehi; [ | reflexivity].
  apply ltb_lt in Elo, Ehi. now elim Hout.
Qed.

Lemma applyRoot_not_finite (bs : Ball.t * Ball.t) : applyRoot bs None = bs.
Proof. now destruct bs. Qed.

Lemma fold_applyRoot_rejected (l : list number) (bs : Ball.t * Ball.t) :
  (forall t, In (Some t) l -> ~ (-1 < t < 1)) ->
  fold_left applyRoot l bs = bs.
Proof.
  induction l as [ | [t | ] l IH]; intros Hl; simpl.
  - reflexivity.
  - rewrite applyRoot_rejected by (apply Hl; now left).
    apply IH. intros u Hu. apply Hl. now right.
  - rewrite applyRoot_not_finite.
    apply IH. intros u Hu. apply Hl. now right.
Qed.

Lemma roots_two_finite (q : QuadraticEquation.t) :
  QuadraticEquation.a q <> 0 -> 0 < QuadraticEquation.delta q ->
  QuadraticEquation.roots q
  = [Some (- QuadraticEquation.b q / (2 * QuadraticEquation.a q)
           + sqrt (QuadraticEquation.delta q) / (2 * QuadraticEquation.a q));
     Some (- QuadraticEquation.b q / (2 * QuadraticEquation.a q)
           - sqrt (QuadraticEquation.delta q) / (2 * QuadraticEquation.a q))].
Proof.
  intros Ha Hd. rewrite roots_pos by lra.
  rewrite !div_nonzero by lra. reflexivity.
Qed.

Lemma roots_two_values (q : QuadraticEquation.t) (s r1 r2 : R) :
  QuadraticEquation.a q <> 0 -> 0 < s ->
  s * s = QuadraticEquation.delta q ->
  r1 = (- QuadraticEquation.b q + s) / (2 * QuadraticEquation.a q) ->
  r2 = (- QuadraticEquation.b q - s) / (2 * QuadraticEquation.a q) ->
  QuadraticEquation.roots q = [Some r1; Some r2].
Proof.
  intros Ha Hs Hd -> ->.
  rewrite roots_two_finite by nra.
  rewrite <- Hd, sqrt_square by lra.
  f_equal; [ | f_equal]; f_equal; field; assumption.
Qed.

Lemma sqrt_of_square (s u : R) : 0 <= s -> s * s = u -> sqrt u = s.
Proof.
  intros Hs <-. now apply sqrt_square.
Qed.

(** The corrector on [slowBall] and [stillBall]: the quadratic it builds
    is t^2 - 2t + 3/4, with roots 3/2 and 1/2, and the second is taken. *)
Lemma slow_still_roots :
  QuadraticEquation.roots (overlapEquation (rewind slowBall) (rewind stillBall))
  = [Some (3 / 2); Some (1 / 2)].
Proof.
  apply (roots_two_values _ 1); kernel_arith; real_arith.
Qed.

Lemma deoverlap_slow_still :
  deoverlap slowBall stillBall
  = (advance (1 / 2) (rewind slowBall), advance (1 / 2) (rewind stillBall)).
Proof.
  rewrite deoverlap_rewinds_first, slow_still_roots. cbn [fold_left].
  rewrite (applyRoot_rejected _ (3 / 2)) by (intros [? ?]; lra).
  rewrite applyRoot_accepted by lra.
  reflexivity.
Qed.

(** C1, at [slowBall] and [stillBall] (radii 2 and 5/4, rewound centres
    (-2, 0) and (0, 0)): the constant coefficient that the corrector
    uses is |dx|^2 - (r1 + r2) = 3/4, not |dx|^2 - (r1 + r2)^2 = -105/16;
    its roots are 3/2 and 1/2 and the first ball ends at (-3/2, 0),
    where the quadratic of the claim has the roots 15/4 and -7/4, none
    of them in (-1, 1), and would leave the ball at (-2, 0). *)
Theorem deoverlap_radius_sum_not_squared :
  let q := overlapEquation (rewind slowBall) (rewind stillBall) in
  let q' := specOverlapEquation (rewind slowBall) (rewind stillBall) in
  QuadraticEquation.a q = QuadraticEquation.a q'
  /\ QuadraticEquation.b q = QuadraticEquation.b q'
  /\ QuadraticEquation.c q = 3 / 4
  /\ QuadraticEquation.c q' = - (105 / 16)
  /\ QuadraticEquation.roots q = [Some (3 / 2); Some (1 / 2)]
  /\ Ball.position (fst (deoverlap slowBall stillBall))
     = Vector2d.mk (- (3 / 2)) 0
  /\ QuadraticEquation.roots q' = [Some (15 / 4); Some (- (7 / 4))]
  /\ Ball.position
       (fst (fold_left applyRoot (QuadraticEquation.roots q')
               (rewind slowBall, rewind stillBall)))
     = Vector2d.mk (- 2) 0.
Proof.
  assert (Hspec :
    QuadraticEquation.roots
      (specOverlapEquation (rewind slowBall) (rewind stillBall))
    = [Some (15 / 4); Some (- (7 / 4))]).
  { apply (roots_two_values _ (11 / 2)); kernel_arith; real_arith. }
  cbv zeta. repeat split.
  - kernel_arith. lra.
  - kernel_arith. lra.
  - exact slow_still_roots.
  - rewrite deoverlap_slow_still. kernel_arith. f_equal; lra.
  - exact Hspec.
  - rewrite Hspec. cbn [fold_left].
    rewrite (applyRoot_rejected _ (15 / 4)) by (intros [? ?]; lra).
    rewrite (applyRoot_rejected _ (- (7 / 4))) by (intros [? ?]; lra). kernel_arith. f_equal; lra.
Qed.

(** C2, at the same two balls: they are detected as colliding, the
    corrector accepts the root 1/2, and once both balls are advanced by
    1/2 of their velocity from the rewound frame their centres are 3/2
    apart, where the radii add up to 13/4. *)
Theorem deoverlap_contact_distance_missed :
  ltb (Vector2d.distanceTo (Ball.position slowBall) (Ball.position stillBall))
      (Ball.radius slowBall + Ball.radius stillBall) = true
  /\ In (Some (1 / 2))
       (QuadraticEquation.roots
          (overlapEquation (rewind slowBall) (rewind stillBall)))
  /\ -1 < 1 / 2 < 1
  /\ deoverlap slowBall stillBall
     = (advance (1 / 2) (rewind slowBall), advance (1 / 2) (rewind stillBall))
  /\ Vector2d.distanceTo
       (Ball.position (advance (1 / 2) (rewind slowBall)))
       (Ball.position (advance (1 / 2) (rewind stillBall))) = 3 / 2
  /\ Ball.radius slowBall + Ball.radius stillBall = 13 / 4
  /\ Vector2d.distanceTo
       (Ball.position (fst (deoverlap slowBall stillBall)))
       (Ball.position (snd (deoverlap slowBall stillBall)))
     <> Ball.radius (fst (deoverlap slowBall stillBall))
        + Ball.radius (snd (deoverlap slowBall stillBall)).
Proof.
  assert (Hdist :
    Vector2d.distanceTo
      (Ball.position (advance (1 / 2) (rewind slowBall)))
      (Ball.position (advance (1 / 2) (rewind stillBall))) = 3 / 2).
  { kernel_arith. apply sqrt_of_square; lra. }
  repeat split.
  - apply ltb_lt. kernel_arith.
    rewrite (sqrt_of_square 1) by lra. lra.
  - rewrite slow_still_roots. right; now left.
  - lra.
  - lra.
  - exact deoverlap_slow_still.
  - exact Hdist.
  - kernel_arith. lra.
  - rewrite deoverlap_slow_still. cbn [fst snd]. rewrite Hdist.
    kernel_arith. lra.
Qed.

(** C7 as stated fails at [movingBall] and [restingBall]: the pair is
    detected as colliding, the quadratic of the corrector is
    t^2 - 2t + 2, without real roots, and the first ball is at (-1, 0)
    after the corrector, not at (0, 0) where integration had put it. *)
Lemma deoverlap_without_root_moves_back :
  ltb (Vector2d.distanceTo (Ball.position movingBall)
         (Ball.position restingBall))
      (Ball.radius movingBall + Ball.radius restingBall) = true
  /\ QuadraticEquation.numberOfRealRoots
       (overlapEquation (rewind movingBall) (rewind restingBall)) = 0%nat
  /\ Ball.position (fst (deoverlap movingBall restingBall))
     = Vector2d.mk (- 1) 0
  /\ Ball.position (fst (deoverlap movingBall restingBall))
     <> Ball.position movingBall.
Proof.
  assert (Hnone :
    QuadraticEquation.numberOfRealRoots
      (overlapEquation (rewind movingBall) (rewind restingBall)) = 0%nat).
  { apply numberOfRealRoots_neg. kernel_arith. lra. }
  assert (Hpos :
    Ball.position (fst (deoverlap movingBall restingBall))
    = Vector2d.mk (- 1) 0).
  { rewrite deoverlap_rewinds_first, roots_neg.
    - kernel_arith. f_equal; lra.
    - kernel_arith. lra. }
  repeat split.
  - apply ltb_lt. kernel_arith. rewrite (sqrt_of_square 1) by lra. lra.
  - exact Hnone.
  - exact Hpos.
  - rewrite Hpos. kernel_arith. intros H. injection H as H. lra.
Qed.

(** C7, amended: when the quadratic that the corrector builds has no
    real root, or has no root in (-1, 1), no advance is applied: both
    balls are left where the rewinding put them, one tick of their own
    velocity before the position that integration gave them, with
    every other field as it was. *)
Theorem deoverlap_without_accepted_root (b1 b2 : Ball.t) :
  let qe := overlapEquation (rewind b1) (rewind b2) in
  QuadraticEquation.numberOfRealRoots qe = 0%nat
  \/ (forall t, In (Some t) (QuadraticEquation.roots qe) -> ~ (-1 < t < 1)) ->
  deoverlap b1 b2 = (rewind b1, rewind b2)
  /\ Ball.position (fst (deoverlap b1 b2))
     = Vector2d.mk
         (Vector2d.x (Ball.position b1) - Vector2d.x (Ball.velocity b1))
         (Vector2d.y (Ball.position b1) - Vector2d.y (Ball.velocity b1))
  /\ Ball.position (snd (deoverlap b1 b2))
     = Vector2d.mk
         (Vector2d.x (Ball.position b2) - Vector2d.x (Ball.velocity b2))
         (Vector2d.y (Ball.position b2) - Vector2d.y (Ball.velocity b2)).
Proof.
  intros qe Hroots.
  assert (Hrej :
    forall t, In (Some t) (QuadraticEquation.roots qe) -> ~ (-1 < t < 1)).
  { destruct Hroots as [Hzero | Hout]; [ | exact Hout].
    intros t Hin. pose proof (length_roots qe) as Hlen.
    rewrite Hzero in Hlen.
    destruct (QuadraticEquation.roots qe); [contradiction | discriminate]. }
  assert (Hde : deoverlap b1 b2 = (rewind b1, rewind b2)).
  { rewrite deoverlap_rewinds_first. now apply fold_applyRoot_rejected. }
  rewrite Hde. repeat split.
Qed.

Lemma deoverlap_without_accepted_root_witness :
  deoverlap movingBall restingBall = (rewind movingBall, rewind restingBall)
  /\ Ball.position (fst (deoverlap movingBall restingBall))
     = Vector2d.mk (0 - 1) (0 - 0)
  /\ Ball.position (snd (deoverlap movingBall restingBall))
     = Vector2d.mk (1 - 0) (0 - 0).
Proof.
  apply (deoverlap_without_accepted_root movingBall restingBall).
  left. apply numberOfRealRoots_neg. kernel_arith. lra.
Defined.

Lemma div_by_zero (p q : R) : q = 0 -> div p q = None.
Proof.
  intros ->. apply div_zero.
Qed.

(** With equal velocities the quadratic of the corrector is 0 t^2 + 0 t + c:
    delta is zero, one root is computed, and its divisor 2a is zero. *)
Lemma roots_equal_velocities (b1 b2 : Ball.t) :
  Ball.velocity b1 = Ball.velocity b2 ->
  let qe := overlapEquation (rewind b1) (rewind b2) in
  QuadraticEquation.a qe = 0
  /\ QuadraticEquation.numberOfRealRoots qe = 1%nat
  /\ QuadraticEquation.roots qe = [None].
Proof.
  intros Hv qe.
  assert (Ha : QuadraticEquation.a qe = 0).
  { unfold qe, overlapEquation. cbn [QuadraticEquation.a].
    change (Ball.velocity (rewind b1)) with (Ball.velocity b1).
    change (Ball.velocity (rewind b2)) with (Ball.velocity b2).
    rewrite Hv. kernel_arith. ring. }
  assert (Hb : QuadraticEquation.b qe = 0).
  { unfold qe, overlapEquation. cbn [QuadraticEquation.b].
    change (Ball.velocity (rewind b1)) with (Ball.velocity b1).
    change (Ball.velocity (rewind b2)) with (Ball.velocity b2).
    rewrite Hv. kernel_arith. ring. }
  assert (Hd : QuadraticEquation.delta qe = 0).
  { unfold QuadraticEquation.delta. rewrite Ha, Hb. ring. }
  repeat split.
  - exact Ha.
  - now apply numberOfRealRoots_zero.
  - rewrite roots_zero by assumption.
    rewrite div_by_zero by (rewrite Ha; ring). reflexivity.
Qed.

Lemma deoverlap_equal_velocities (b1 b2 : Ball.t) :
  Ball.velocity b1 = Ball.velocity b2 ->
  deoverlap b1 b2 = (rewind b1, rewind b2).
Proof.
  intros Hv. rewrite deoverlap_rewinds_first.
  destruct (roots_equal_velocities b1 b2 Hv) as (_ & _ & ->).
  reflexivity.
Qed.

(** C9 as stated fails at [movingBall] and [escortBall], which collide
    and have the same velocity (1, 0): the one root of the quadratic is
    computed by a division by 2a = 0, and the first ball is at (-1, 0)
    after the corrector, not at (0, 0) where it was before. *)
Lemma deoverlap_equal_velocities_divides_by_zero :
  Ball.velocity movingBall = Ball.velocity escortBall
  /\ ltb (Vector2d.distanceTo (Ball.position movingBall)
            (Ball.position escortBall))
         (Ball.radius movingBall + Ball.radius escortBall) = true
  /\ 2 * QuadraticEquation.a
           (overlapEquation (rewind movingBall) (rewind escortBall)) = 0
  /\ QuadraticEquation.roots
       (overlapEquation (rewind movingBall) (rewind escortBall)) = [None]
  /\ Ball.position (fst (deoverlap movingBall escortBall))
     = Vector2d.mk (- 1) 0
  /\ Ball.position (fst (deoverlap movingBall escortBall))
     <> Ball.position movingBall.
Proof.
  assert (Hv : Ball.velocity movingBall = Ball.velocity escortBall)
    by reflexivity.
  destruct (roots_equal_velocities movingBall escortBall Hv) as (Ha & _ & Hr).
  assert (Hpos :
    Ball.position (fst (deoverlap movingBall escortBall))
    = Vector2d.mk (- 1) 0).
  { rewrite deoverlap_equal_velocities by exact Hv.
    kernel_arith. f_equal; lra. }
  repeat split.
  - apply ltb_lt. kernel_arith. rewrite (sqrt_of_square 1) by lra. lra.
  - rewrite Ha. ring.
  - exact Hr.
  - exact Hpos.
  - rewrite Hpos. kernel_arith. intros H. injection H as H. lra.
Qed.

Lemma live_rewind (b : Ball.t) : live b -> live (rewind b).
Proof. intros H. exact H. Qed.

Lemma set_velocity_same (b : Ball.t) :
  Ball.set_velocity b (Ball.velocity b) = b.
Proof. now destruct b. Qed.

Lemma elasticVelocity_equal_velocities (b1 b2 : Ball.t) :
  Ball.velocity b1 = Ball.velocity b2 ->
  Ball.position b1 <> Ball.position b2 ->
  Ball.getMass b1 + Ball.getMass b2 <> 0 ->
  elasticVelocity b1 b2 = Ball.velocity b1.
Proof.
  intros Hv Hpos Hm.
  pose proof (separation_pos _ _ Hpos) as Hlen.
  unfold elasticVelocity. rewrite Hv.
  set (len := sqrt _) in *.
  destruct (Ball.velocity b2) as [vx vy]. simpl.
  f_equal; field; split; lra.
Qed.

Lemma rewind_apart (b1 b2 : Ball.t) :
  Ball.velocity b1 = Ball.velocity b2 ->
  Ball.position b1 <> Ball.position b2 ->
  Ball.position (rewind b1) <> Ball.position (rewind b2).
Proof.
  intros Hv Hpos Heq. apply Hpos.
  unfold rewind, Vector2d.minusAssign in Heq. simpl in Heq. rewrite Hv in Heq.
  destruct (Ball.position b1) as [x1 y1], (Ball.position b2) as [x2 y2].
  simpl in Heq. injection Heq as Hx Hy. f_equal; lra.
Qed.

(** C9, amended: for a colliding pair with zero relative velocity the
    leading coefficient is 0 and the solver divides by 2a = 0; the root
    it returns is not a real number and fails the test -1 < t < 1, so no
    advance is applied and both balls are left rewound by one tick of
    their velocity; collision resolution then runs on the rewound pair,
    and for live balls at distinct positions it leaves the velocities
    as they are. *)
Theorem deoverlap_zero_relative_velocity (rgb : string) (b1 b2 : Ball.t) :
  Ball.velocity b1 = Ball.velocity b2 ->
  ltb (Vector2d.distanceTo (Ball.position b1) (Ball.position b2))
      (Ball.radius b1 + Ball.radius b2) = true ->
  let qe := overlapEquation (rewind b1) (rewind b2) in
  QuadraticEquation.a qe = 0
  /\ QuadraticEquation.roots qe = [div (- QuadraticEquation.b qe) 0]
  /\ QuadraticEquation.roots qe = [None]
  /\ deoverlap b1 b2 = (rewind b1, rewind b2)
  /\ collisionDetectWith rgb b1 b2
     = match collide (rewind b1) (rewind b2) with
       | Some (c1, c2) => Some (Ball.set_color c1 rgb, Ball.set_color c2 rgb)
       | None => None
       end
  /\ (live b1 -> live b2 -> Ball.position b1 <> Ball.position b2 ->
      collisionDetectWith rgb b1 b2
      = Some (Ball.set_color (rewind b1) rgb, Ball.set_color (rewind b2) rgb)).
Proof.
  intros Hv Hhit qe.
  destruct (roots_equal_velocities b1 b2 Hv) as (Ha & _ & Hr).
  fold qe in Ha, Hr.
  assert (Hrun :
    collisionDetectWith rgb b1 b2
    = match collide (rewind b1) (rewind b2) with
      | Some (c1, c2) => Some (Ball.set_color c1 rgb, Ball.set_color c2 rgb)
      | None => None
      end).
  { unfold collisionDetectWith. rewrite Hhit.
    rewrite deoverlap_equal_velocities by exact Hv. reflexivity. }
  repeat split.
  - exact Ha.
  - rewrite Hr. now rewrite div_zero.
  - exact Hr.
  - now apply deoverlap_equal_velocities.
  - exact Hrun.
  - intros H1 H2 Hpos. rewrite Hrun.
    rewrite collide_resolved;
      [ | now apply live_rewind | now apply live_rewind
        | now apply rewind_apart ].
    assert (Hv' : Ball.velocity (rewind b1) = Ball.velocity (rewind b2))
      by exact Hv.
    pose proof (rewind_apart b1 b2 Hv Hpos) as Hpos'.
    assert (Hpos'' : Ball.position (rewind b2) <> Ball.position (rewind b1))
      by congruence.
    pose proof (live_mass_sum _ _ (live_rewind b1 H1) (live_rewind b2 H2)) as Hm.
    pose proof (live_mass_sum _ _ (live_rewind b2 H2) (live_rewind b1 H1)) as Hm'.
    rewrite (elasticVelocity_equal_velocities (rewind b1) (rewind b2))
      by assumption.
    rewrite (elasticVelocity_equal_velocities (rewind b2) (rewind b1))
      by (try assumption; now symmetry).
    now rewrite !set_velocity_same.
Qed.

Lemma moving_escort_hit :
  ltb (Vector2d.distanceTo (Ball.position movingBall)
         (Ball.position escortBall))
      (Ball.radius movingBall + Ball.radius escortBall) = true.
Proof.
  apply ltb_lt. kernel_arith. rewrite (sqrt_of_square 1) by lra. lra.
Defined.

Lemma deoverlap_zero_relative_velocity_witness :
  QuadraticEquation.roots
    (overlapEquation (rewind movingBall) (rewind escortBall)) = [None]
  /\ deoverlap movingBall escortBall = (rewind movingBall, rewind escortBall).
Proof.
  pose proof (deoverlap_zero_relative_velocity "rgb(1,2,3)"
                movingBall escortBall eq_refl moving_escort_hit) as H.
  split; [exact (proj1 (proj2 (proj2 H)))
         | exact (proj1 (proj2 (proj2 (proj2 H))))].
Defined.

End Overlap.

(** ** Boundary reflection *)

Section Boundary.

Variables width height : R.

(** The position is advanced by the velocity that the ball has after the
    two tests, and is not changed in any other way. *)
Lemma update_position (b : Ball.t) :
  Ball.position (Ball.update width height b)
  = Vector2d.add (Ball.position b)
      (Ball.velocity (Ball.update width height b)).
Proof.
  unfold Ball.update.
  destruct (geb _ width || leb _ 0); simpl;
    destruct (geb _ height || leb _ 0); reflexivity.
Qed.

Lemma update_velocity_x (b : Ball.t) :
  Vector2d.x (Ball.velocity (Ball.update width height b))
  = if geb (Vector2d.x (Ball.position b) + Ball.radius b) width
       || leb (Vector2d.x (Ball.position b) + Ball.radius b) 0
    then - Vector2d.x (Ball.velocity b)
    else Vector2d.x (Ball.velocity b).
Proof.
  unfold Ball.update.
  destruct (geb _ width || leb _ 0); simpl;
    destruct (geb _ height || leb _ 0); reflexivity.
Qed.

Lemma update_velocity_y (b : Ball.t) :
  Vector2d.y (Ball.velocity (Ball.update width height b))
  = if geb (Vector2d.y (Ball.position b) + Ball.radius b) height
       || leb (Vector2d.y (Ball.position b) + Ball.radius b) 0
    then - Vector2d.y (Ball.velocity b)
    else Vector2d.y (Ball.velocity b).
Proof.
  unfold Ball.update.
  destruct (geb _ width || leb _ 0); simpl;
    destruct (geb _ height || leb _ 0); reflexivity.
Qed.

Lemma update_frame (b : Ball.t) :
  Ball.radius (Ball.update width height b) = Ball.radius b
  /\ Ball.color (Ball.update width height b) = Ball.color b
  /\ Ball.coefficientOfMass (Ball.update width height b)
     = Ball.coefficientOfMass b.
Proof.
  unfold Ball.update.
  destruct (geb _ width || leb _ 0); simpl;
    destruct (geb _ height || leb _ 0); repeat split.
Qed.

(** C8, amended: a ball whose edge on the far side, position + radius,
    is at or beyond x = width (y = height) when the step starts has
    that velocity component negated; the position is never clipped:
    in every case the new position is the old one plus the velocity
    that results, and radius, colour and mass coefficient are kept. *)
Theorem update_reflects_at_far_edge (b : Ball.t) :
  let b' := Ball.update width height b in
  (Vector2d.x (Ball.position b) + Ball.radius b >= width ->
   Vector2d.x (Ball.velocity b') = - Vector2d.x (Ball.velocity b))
  /\ (Vector2d.y (Ball.position b) + Ball.radius b >= height ->
      Vector2d.y (Ball.velocity b') = - Vector2d.y (Ball.velocity b))
  /\ Ball.position b'
     = Vector2d.mk
         (Vector2d.x (Ball.position b) + Vector2d.x (Ball.velocity b'))
         (Vector2d.y (Ball.position b) + Vector2d.y (Ball.velocity b'))
  /\ Ball.radius b' = Ball.radius b
  /\ Ball.color b' = Ball.color b
  /\ Ball.coefficientOfMass b' = Ball.coefficientOfMass b.
Proof.
  intros b'. split; [ | split; [ | split]].
  - intros Hx. unfold b'. rewrite update_velocity_x.
    now rewrite (proj2 (geb_ge _ _) Hx).
  - intros Hy. unfold b'. rewrite update_velocity_y.
    now rewrite (proj2 (geb_ge _ _) Hy).
  - unfold b'. now rewrite update_position.
  - apply update_frame.
Qed.

End Boundary.

(** C8 as stated fails at [nearEdgeBall] in a canvas 1000 wide and high:
    its edge is at 997 and would be at 1007 after the step, across
    x = 1000, yet the step keeps the velocity (10, 0) and moves the
    ball to (1005, 500).  It fails at [leftEdgeBall] too, whose left
    edge is at -5, across x = 0, and whose velocity (-3, 0) is kept. *)
Lemma update_ignores_next_position :
  (Vector2d.x (Ball.position nearEdgeBall) + Ball.radius nearEdgeBall < 1000
   /\ Vector2d.x (Ball.position nearEdgeBall)
      + Vector2d.x (Ball.velocity nearEdgeBall)
      + Ball.radius nearEdgeBall > 1000
   /\ Ball.velocity (Ball.update 1000 1000 nearEdgeBall) = Vector2d.mk 10 0
   /\ Vector2d.x (Ball.velocity (Ball.update 1000 1000 nearEdgeBall))
      <> - Vector2d.x (Ball.velocity nearEdgeBall)
   /\ Ball.position (Ball.update 1000 1000 nearEdgeBall)
      = Vector2d.mk (995 + 10) (500 + 0))
  /\ (Vector2d.x (Ball.position leftEdgeBall) - Ball.radius leftEdgeBall < 0
      /\ Vector2d.x (Ball.velocity leftEdgeBall) < 0
      /\ Ball.velocity (Ball.update 1000 1000 leftEdgeBall)
         = Vector2d.mk (- 3) 0
      /\ Vector2d.x (Ball.velocity (Ball.update 1000 1000 leftEdgeBall))
         <> - Vector2d.x (Ball.velocity leftEdgeBall)).
Proof.
  assert (Hin : forall p q : R, ~ p >= q -> ~ p <= 0 ->
                geb p q || leb p 0 = false).
  { intros p q Hge Hle.
    now rewrite (proj2 (geb_nge _ _) Hge), (proj2 (leb_nle _ _) Hle). }
  assert (Hv : Ball.velocity (Ball.update 1000 1000 nearEdgeBall)
               = Vector2d.mk 10 0).
  { unfold Ball.update, nearEdgeBall, Ball.new. cbn.
    rewrite (Hin (995 + 2) 1000) by lra. cbn.
    rewrite (Hin (500 + 2) 1000) by lra. reflexivity. }
  assert (Hw : Ball.velocity (Ball.update 1000 1000 leftEdgeBall)
               = Vector2d.mk (- 3) 0).
  { unfold Ball.update, leftEdgeBall, Ball.new. cbn.
    rewrite (Hin (5 + 10) 1000) by lra. cbn.
    rewrite (Hin (500 + 10) 1000) by lra. reflexivity. }
  split; repeat split.
  - kernel_arith. lra.
  - kernel_arith. lra.
  - exact Hv.
  - rewrite Hv. kernel_arith. lra.
  - rewrite update_position, Hv. reflexivity.
  - kernel_arith. lra.
  - kernel_arith. lra.
  - exact Hw.
  - rewrite Hw. kernel_arith. lra.
Qed.

Lemma update_reflects_at_far_edge_witness :
  Vector2d.x (Ball.velocity (Ball.update 1000 1000 pastEdgeBall))
  = - Vector2d.x (Ball.velocity pastEdgeBall).
Proof.
  apply (proj1 (update_reflects_at_far_edge 1000 1000 pastEdgeBall)).
  kernel_arith. lra.
Defined.

(** * Further properties of the kernel *)

(** ** Vectors *)

Section VectorFacts.

Import Vector2d.

Lemma norm_nonneg (v : t) : 0 <= norm v.
Proof.
  unfold norm. apply sqrt_pos.
Qed.

Lemma magnitudeSquare_zero (v : t) : magnitudeSquare v = 0 -> v = mk 0 0.
Proof.
  destruct v as [vx vy]. unfold magnitudeSquare, innerProduct. simpl.
  intros H. f_equal; nra.
Qed.

Lemma norm_zero_iff (v : t) : norm v = 0 <-> v = mk 0 0.
Proof.
  split.
  - intros H. apply magnitudeSquare_zero.
    rewrite <- norm_norm, H. ring.
  - intros ->. unfold norm, magnitudeSquare, innerProduct. simpl.
    replace (0 * 0 + 0 * 0) with 0 by ring. apply sqrt_0.
Qed.

Lemma normalize_zero : normalize (mk 0 0) = None.
Proof.
  unfold normalize.
  rewrite (proj2 (norm_zero_iff (mk 0 0)) eq_refl). now rewrite div_zero.
Qed.

(** X1: [normalize] yields a vector of norm 1, in the direction of the
    receiver, for every vector but (0, 0), on which both divisions have
    a zero divisor. *)
Theorem normalize_unit (v : t) :
  (v = mk 0 0 -> normalize v = None)
  /\ (v <> mk 0 0 ->
      exists u, normalize v = Some u
                /\ norm u = 1
                /\ scaleBy u (norm v) = v).
Proof.
  split.
  - intros ->. apply normalize_zero.
  - intros Hv.
    assert (Hn : norm v <> 0) by (intros H; now apply Hv, norm_zero_iff).
    pose proof (norm_norm v) as Hsq.
    exists (mk (x v / norm v) (y v / norm v)). split; [ | split].
    + now apply normalize_nonzero.
    + unfold norm at 1. unfold magnitudeSquare, innerProduct. simpl.
      apply sqrt_of_square; [lra | ].
      unfold magnitudeSquare, innerProduct in Hsq.
      replace (x v / norm v * (x v / norm v) + y v / norm v * (y v / norm v))
        with ((x v * x v + y v * y v) / (norm v * norm v)) by (field; assumption).
      rewrite Hsq. field.
      unfold magnitudeSquare, innerProduct in *. rewrite <- Hsq. nra.
    + destruct v as [vx vy]. unfold scaleBy. simpl in *.
      f_equal; field; assumption.
Qed.

Lemma normalize_unit_witness :
  exists u, normalize (mk 3 4) = Some u /\ norm u = 1
            /\ scaleBy u (norm (mk 3 4)) = mk 3 4.
Proof.
  apply (proj2 (normalize_unit (mk 3 4))).
  intros H. injection H as H _. lra.
Defined.

Lemma minus_self_iff (p q : t) : minus p q = mk 0 0 <-> p = q.
Proof.
  destruct p as [px py], q as [qx qy]. unfold minus, add, negate. simpl.
  split; intros H; injection H as Hx Hy; f_equal; lra.
Qed.

(** X2: [distanceTo] is symmetric, never negative, and zero exactly between a
    point and itself. *)
Theorem distanceTo_symmetric_definite (p q : t) :
  distanceTo p q = distanceTo q p
  /\ 0 <= distanceTo p q
  /\ (distanceTo p q = 0 <-> p = q).
Proof.
  unfold distanceTo. split; [apply norm_minus_sym | split].
  - apply norm_nonneg.
  - rewrite norm_zero_iff. apply minus_self_iff.
Qed.

(** X3: The triangle inequality for [distanceTo]. *)
Theorem distanceTo_triangle (p q r : t) :
  distanceTo p r <= distanceTo p q + distanceTo q r.
Proof.
  unfold distanceTo.
  pose proof (norm_nonneg (minus p q)) as Ha.
  pose proof (norm_nonneg (minus q r)) as Hb.
  pose proof (norm_norm (minus p q)) as Hsa.
  pose proof (norm_norm (minus q r)) as Hsb.
  set (na := norm (minus p q)) in *. set (nb := norm (minus q r)) in *.
  unfold norm. rewrite <- (sqrt_square (na + nb)) by lra.
  apply sqrt_le_1_alt.
  destruct p as [px py], q as [qx qy], r as [rx ry].
  unfold magnitudeSquare, innerProduct in *. simpl in *.
  set (a1 := px + - qx) in *. set (a2 := py + - qy) in *.
  set (b1 := qx + - rx) in *. set (b2 := qy + - ry) in *.
  replace (px + - rx) with (a1 + b1) by (unfold a1, b1; ring).
  replace (py + - ry) with (a2 + b2) by (unfold a2, b2; ring).
  assert (Hcs : a1 * b1 + a2 * b2 <= na * nb).
  { assert (Hsq : (a1 * b1 + a2 * b2) * (a1 * b1 + a2 * b2)
                  <= (na * nb) * (na * nb)).
    { replace (na * nb * (na * nb)) with ((na * na) * (nb * nb)) by ring.
      rewrite Hsa, Hsb.
      pose proof (Rle_0_sqr (a1 * b2 - a2 * b1)) as Hcross.
      unfold Rsqr in Hcross. lra. }
    assert (0 <= na * nb) by (apply Rmult_le_pos; assumption).
    destruct (Rle_lt_dec (a1 * b1 + a2 * b2) (na * nb)) as [Hle | Hgt];
      [assumption | ].
    exfalso.
    assert ((na * nb) * (na * nb)
            < (a1 * b1 + a2 * b2) * (a1 * b1 + a2 * b2))
      by (apply Rmult_le_0_lt_compat; lra).
    lra. }
  lra.
Qed.

End VectorFacts.

(** ** The quadratic solver *)

Section QuadraticFacts.

Import QuadraticEquation.

Lemma delta_cases (q : t) : delta q < 0 \/ delta q = 0 \/ 0 < delta q.
Proof.
  destruct (Rtotal_order (delta q) 0) as [H | [H | H]]; auto.
Qed.

(** X4: Every real number that [roots] returns solves the equation, whatever
    the coefficients. *)
Theorem roots_sound (q : t) (r : R) :
  In (Some r) (roots q) -> a q * r ^ 2 + b q * r + c q = 0.
Proof.
  intros Hin.
  destruct (Req_dec_T (a q) 0) as [Ha | Ha].
  - exfalso.
    destruct (delta_cases q) as [Hd | [Hd | Hd]].
    + now rewrite roots_neg in Hin.
    + rewrite roots_zero in Hin by assumption.
      rewrite div_by_zero in Hin by (rewrite Ha; ring).
      destruct Hin as [Hin | []]. discriminate.
    + rewrite roots_pos in Hin by lra.
      rewrite !div_by_zero in Hin by (rewrite Ha; ring).
      destruct Hin as [Hin | [Hin | []]]; discriminate.
  - assert (Haa : 2 * a q <> 0) by lra.
    assert (Hkey : (2 * a q * r + b q) ^ 2 = delta q ->
                   a q * r ^ 2 + b q * r + c q = 0).
    { unfold delta. intros H.
      assert (4 * a q * (a q * r ^ 2 + b q * r + c q) = 0) by nra.
      assert (4 * a q <> 0) by lra.
      destruct (Rmult_integral _ _ H0); [contradiction | assumption]. }
    apply Hkey.
    destruct (delta_cases q) as [Hd | [Hd | Hd]].
    + now rewrite roots_neg in Hin.
    + rewrite roots_zero in Hin by assumption.
      rewrite div_nonzero in Hin by assumption.
      destruct Hin as [Hin | []]. injection Hin as <-.
      rewrite Hd. field. assumption.
    + pose proof (sqrt_sqrt (delta q) (Rlt_le _ _ Hd)) as Hs.
      rewrite roots_two_finite in Hin by assumption.
      destruct Hin as [Hin | [Hin | []]]; injection Hin as <-.
      * transitivity (sqrt (delta q) * sqrt (delta q));
          [field; assumption | exact Hs].
      * transitivity (sqrt (delta q) * sqrt (delta q));
          [field; assumption | exact Hs].
Qed.

(** X5: With a <> 0, [roots] returns every real solution of the equation. *)
Theorem roots_complete (q : t) (r : R) :
  a q <> 0 -> a q * r ^ 2 + b q * r + c q = 0 -> In (Some r) (roots q).
Proof.
  intros Ha Hr.
  assert (Haa : 2 * a q <> 0) by lra.
  assert (Hsq : (2 * a q * r + b q) ^ 2 = delta q) by (unfold delta; nra).
  destruct (delta_cases q) as [Hd | [Hd | Hd]].
  - exfalso. pose proof (pow2_ge_0 (2 * a q * r + b q)). lra.
  - rewrite roots_zero, div_nonzero by assumption. left. f_equal.
    assert (2 * a q * r + b q = 0).
    { rewrite Hd in Hsq. simpl in Hsq.
      destruct (Rmult_integral _ _ Hsq) as [H | H]; lra. }
    apply (Rmult_eq_reg_l (2 * a q)); [ | assumption].
    field_simplify; [lra | assumption].
  - pose proof (sqrt_sqrt (delta q) (Rlt_le _ _ Hd)) as Hs.
    pose proof (sqrt_lt_R0 _ Hd) as Hpos.
    rewrite roots_two_finite by assumption.
    set (s := sqrt (delta q)) in *.
    assert (Hpm : 2 * a q * r + b q = s \/ 2 * a q * r + b q = - s).
    { assert ((2 * a q * r + b q - s) * (2 * a q * r + b q + s) = 0) by nra.
      destruct (Rmult_integral _ _ H); [left | right]; lra. }
    destruct Hpm as [Hp | Hm].
    + left. f_equal. apply (Rmult_eq_reg_l (2 * a q)); [ | assumption].
      field_simplify; [lra | assumption].
    + right; left. f_equal. apply (Rmult_eq_reg_l (2 * a q)); [ | assumption].
      field_simplify; [lra | assumption].
Qed.

Lemma roots_complete_witness : In (Some 2) (roots (mk 1 0 (-4))).
Proof.
  apply (roots_complete (mk 1 0 (-4)) 2); simpl; lra.
Defined.

Lemma two_among_roots : In (Some 2) (roots (mk 1 0 (-4))).
Proof.
  rewrite (roots_two_values _ 4 2 (-2)); [now left | | | | | ];
    unfold delta; simpl; real_arith.
Qed.

Lemma roots_sound_witness :
  a (mk 1 0 (-4)) * 2 ^ 2 + b (mk 1 0 (-4)) * 2 + c (mk 1 0 (-4)) = 0.
Proof.
  apply (roots_sound (mk 1 0 (-4)) 2). exact two_among_roots.
Defined.

(** X6: [realRootsExist] holds exactly when [numberOfRealRoots] is not 0,
    which is exactly when [roots] returns a value. *)
Theorem realRootsExist_iff (q : t) :
  (realRootsExist q = true <-> numberOfRealRoots q <> 0%nat)
  /\ (realRootsExist q = true <-> roots q <> []).
Proof.
  assert (H1 : realRootsExist q = true <-> numberOfRealRoots q <> 0%nat).
  { unfold realRootsExist. rewrite geb_ge.
    destruct (delta_cases q) as [Hd | [Hd | Hd]].
    - rewrite numberOfRealRoots_neg by assumption. split; [lra | easy].
    - rewrite numberOfRealRoots_zero by assumption. split; [easy | lra].
    - rewrite numberOfRealRoots_pos by lra. split; [easy | lra]. }
  split; [exact H1 | ].
  rewrite H1, <- length_roots.
  destruct (roots q); simpl; split; intros H; easy.
Qed.

(** X7: With a = 0 the solver still reports real roots, one if b = 0 and two
    otherwise, and none of the values it returns is a real number: the
    solution -c / b of the linear equation is not found. *)
Theorem roots_degenerate (q : t) :
  a q = 0 ->
  realRootsExist q = true
  /\ (b q = 0 -> roots q = [None])
  /\ (b q <> 0 -> roots q = [None; None])
  /\ (forall r, ~ In (Some r) (roots q)).
Proof.
  intros Ha.
  assert (Hd : delta q = b q ^ 2) by (unfold delta; rewrite Ha; ring).
  assert (H0 : b q = 0 -> roots q = [None]).
  { intros Hb. rewrite roots_zero by (rewrite Hd, Hb; ring).
    now rewrite div_by_zero by (rewrite Ha; ring). }
  assert (H2 : b q <> 0 -> roots q = [None; None]).
  { intros Hb.
    assert (0 < delta q) by (rewrite Hd; simpl; nra).
    rewrite roots_pos by lra.
    now rewrite !div_by_zero by (rewrite Ha; ring). }
  split; [ | split; [exact H0 | split; [exact H2 | ]]].
  - unfold realRootsExist. apply geb_ge. rewrite Hd. simpl. nra.
  - intros r Hin. destruct (Req_dec_T (b q) 0) as [Hb | Hb].
    + rewrite (H0 Hb) in Hin. destruct Hin as [Hin | []]. discriminate.
    + rewrite (H2 Hb) in Hin.
      destruct Hin as [Hin | [Hin | []]]; discriminate.
Qed.

Lemma roots_degenerate_witness : roots (mk 0 3 (-6)) = [None; None].
Proof.
  apply (roots_degenerate (mk 0 3 (-6)) eq_refl). simpl. lra.
Defined.

End QuadraticFacts.

(** ** Balls *)

Section BallFacts.

(** X8: [Ball.copy] keeps position, velocity, colour and radius and sets the
    mass coefficient to 10; so the copy is the ball itself exactly when
    the ball has that coefficient, and copying twice is copying once. *)
Theorem copy_resets_coefficient (b : Ball.t) :
  Ball.position (Ball.copy b) = Ball.position b
  /\ Ball.velocity (Ball.copy b) = Ball.velocity b
  /\ Ball.color (Ball.copy b) = Ball.color b
  /\ Ball.radius (Ball.copy b) = Ball.radius b
  /\ Ball.coefficientOfMass (Ball.copy b) = 10
  /\ Ball.copy (Ball.copy b) = Ball.copy b
  /\ (Ball.copy b = b <-> Ball.coefficientOfMass b = 10).
Proof.
  destruct b as [[px py] [vx vy] col r k]. repeat split.
  - intros H. unfold Ball.copy, Ball.new in H. simpl in H.
    now injection H as <-.
  - simpl. intros ->. reflexivity.
Qed.

Variables width height : R.

(** X9: A step of [update] keeps the speed of the ball, and so its kinetic
    energy and its mass: a reflection only changes signs. *)
Theorem update_keeps_speed (b : Ball.t) :
  let b' := Ball.update width height b in
  Vector2d.magnitudeSquare (Ball.velocity b')
  = Vector2d.magnitudeSquare (Ball.velocity b)
  /\ getMass b' = getMass b
  /\ getKineticEnergy b' = getKineticEnergy b.
Proof.
  assert (Hv :
    Vector2d.magnitudeSquare (Ball.velocity (Ball.update width height b))
    = Vector2d.magnitudeSquare (Ball.velocity b)).
  { unfold Vector2d.magnitudeSquare, Vector2d.innerProduct.
    rewrite update_velocity_x, update_velocity_y.
    destruct (geb _ width || leb _ 0); destruct (geb _ height || leb _ 0);
      ring. }
  destruct (update_frame width height b) as (Hr & _ & Hk).
  assert (Hm : Ball.getMass (Ball.update width height b) = Ball.getMass b).
  { unfold Ball.getMass. now rewrite Hr, Hk. }
  cbv zeta. repeat split.
  - exact Hv.
  - exact Hm.
  - simpl. unfold Ball.getKineticEnergy. now rewrite Hv, Hm.
Qed.

Lemma update_past_edge_step (c : Ball.t) :
  Vector2d.x (Ball.position c) + Ball.radius c >= width ->
  Vector2d.x (Ball.position (Ball.update width height c))
  = Vector2d.x (Ball.position c) - Vector2d.x (Ball.velocity c)
  /\ Vector2d.x (Ball.velocity (Ball.update width height c))
     = - Vector2d.x (Ball.velocity c).
Proof.
  intros Hge.
  assert (Hv : Vector2d.x (Ball.velocity (Ball.update width height c))
               = - Vector2d.x (Ball.velocity c)).
  { rewrite update_velocity_x. now rewrite (proj2 (geb_ge _ _) Hge). }
  split; [ | exact Hv].
  rewrite update_position. unfold Vector2d.add. cbn [Vector2d.x].
  rewrite Hv. ring.
Qed.

(** X10: A ball whose far edge is at or beyond x = width, and was so one step
    of its velocity earlier, stays there for ever: every step turns its
    horizontal velocity round again. *)
Theorem update_trapped_past_edge (b : Ball.t) (n : nat) :
  Vector2d.x (Ball.position b) + Ball.radius b >= width ->
  Vector2d.x (Ball.position b) - Vector2d.x (Ball.velocity b) + Ball.radius b
    >= width ->
  let b' := Nat.iter n (Ball.update width height) b in
  Vector2d.x (Ball.position b') + Ball.radius b' >= width
  /\ Rabs (Vector2d.x (Ball.position b') - Vector2d.x (Ball.position b))
     <= Rabs (Vector2d.x (Ball.velocity b)).
Proof.
  intros H1 H2. cbv zeta.
  assert (Hinv :
    let b' := Nat.iter n (Ball.update width height) b in
    Ball.radius b' = Ball.radius b
    /\ ((Vector2d.x (Ball.position b') = Vector2d.x (Ball.position b)
         /\ Vector2d.x (Ball.velocity b') = Vector2d.x (Ball.velocity b))
        \/ (Vector2d.x (Ball.position b')
            = Vector2d.x (Ball.position b) - Vector2d.x (Ball.velocity b)
            /\ Vector2d.x (Ball.velocity b')
               = - Vector2d.x (Ball.velocity b)))).
  { induction n as [ | n IH]; cbv zeta.
    - simpl. split; [reflexivity | left; split; reflexivity].
    - simpl Nat.iter. cbv zeta in IH.
      set (c := Nat.iter n (Ball.update width height) b) in *.
      destruct IH as (Hr & Hcase).
      destruct (update_frame width height c) as (Hr' & _).
      split; [congruence | ].
      assert (Hge : Vector2d.x (Ball.position c) + Ball.radius c >= width)
        by (destruct Hcase as [[-> _] | [-> _]]; rewrite Hr; assumption).
      destruct (update_past_edge_step c Hge) as (Hp' & Hv').
      rewrite Hp', Hv'.
      destruct Hcase as [[Hp Hv] | [Hp Hv]]; rewrite Hp, Hv;
        [right | left]; split; ring. }
  cbv zeta in Hinv.
  set (c := Nat.iter n (Ball.update width height) b) in *.
  destruct Hinv as (Hr & [[Hp Hv] | [Hp Hv]]); rewrite Hr, Hp; split;
    try assumption.
  - replace (Vector2d.x (Ball.position b) - Vector2d.x (Ball.position b))
      with 0 by ring.
    rewrite Rabs_R0. apply Rabs_pos.
  - replace (Vector2d.x (Ball.position b) - Vector2d.x (Ball.velocity b)
             - Vector2d.x (Ball.position b))
      with (- Vector2d.x (Ball.velocity b)) by ring.
    rewrite Rabs_Ropp. apply Rle_refl.
Qed.

End BallFacts.

Lemma update_trapped_past_edge_witness :
  Vector2d.x (Ball.position
                (Nat.iter 7 (Ball.update 1000 1000)
                   (Ball.new 1020 500 10 0 "rgb(0,0,0)" 2)))
  + Ball.radius (Nat.iter 7 (Ball.update 1000 1000)
                   (Ball.new 1020 500 10 0 "rgb(0,0,0)" 2))
  >= 1000.
Proof.
  apply (update_trapped_past_edge 1000 1000
           (Ball.new 1020 500 10 0 "rgb(0,0,0)" 2) 7);
    simpl; lra.
Defined.

(** ** Collision resolution *)

Section CollisionFacts.

Lemma separation_square_pos (p q : Vector2d.t) :
  p <> q ->
  0 < (Vector2d.x p - Vector2d.x q) * (Vector2d.x p - Vector2d.x q)
      + (Vector2d.y p - Vector2d.y q) * (Vector2d.y p - Vector2d.y q).
Proof.
  intros Hpq. pose proof (separation_pos p q Hpq) as Hlen.
  set (D := _ + _) in *.
  destruct (Rlt_le_dec 0 D) as [H | H]; [assumption | ].
  rewrite (sqrt_neg_0 D H) in Hlen. lra.
Qed.

Lemma elasticVelocity_impulse (self other : Ball.t) :
  Ball.position self <> Ball.position other ->
  elasticVelocity self other = impulseVelocity self other.
Proof.
  intros Hpos.
  pose proof (separation_pos _ _ Hpos) as Hlen.
  pose proof (separation_square_pos _ _ Hpos) as HD.
  unfold elasticVelocity, impulseVelocity. cbv zeta.
  set (sf := 2 * Ball.getMass other / _).
  set (dpx := Vector2d.x (Ball.position self) - Vector2d.x (Ball.position other)) in *.
  set (dpy := Vector2d.y (Ball.position self) - Vector2d.y (Ball.position other)) in *.
  set (dvx := Vector2d.x (Ball.velocity self) - Vector2d.x (Ball.velocity other)).
  set (dvy := Vector2d.y (Ball.velocity self) - Vector2d.y (Ball.velocity other)).
  set (ip := dpx * dvx + dpy * dvy).
  assert (Hsq : sqrt (dpx * dpx + dpy * dpy) * sqrt (dpx * dpx + dpy * dpy)
                = dpx * dpx + dpy * dpy) by (apply sqrt_sqrt; lra).
  set (len := sqrt (dpx * dpx + dpy * dpy)) in *.
  rewrite <- Hsq.
  f_equal; field; lra.
Qed.

Lemma collide_impulse (b1 b2 : Ball.t) :
  live b1 -> live b2 -> Ball.position b1 <> Ball.position b2 ->
  collide b1 b2
  = Some (Ball.set_velocity b1 (impulseVelocity b1 b2),
          Ball.set_velocity b2 (impulseVelocity b2 b1)).
Proof.
  intros H1 H2 Hpos.
  rewrite collide_resolved by assumption.
  rewrite !elasticVelocity_impulse by congruence.
  reflexivity.
Qed.

(** X11: [collide] is an elastic collision: it keeps the total kinetic
    energy of the two balls. *)
Theorem collide_conserves_kinetic_energy (b1 b2 : Ball.t) :
  live b1 -> live b2 -> Ball.position b1 <> Ball.position b2 ->
  exists b1' b2',
    collide b1 b2 = Some (b1', b2')
    /\ getKineticEnergy b1' + getKineticEnergy b2'
       = getKineticEnergy b1 + getKineticEnergy b2.
Proof.
  intros H1 H2 Hpos.
  exists (Ball.set_velocity b1 (impulseVelocity b1 b2)),
         (Ball.set_velocity b2 (impulseVelocity b2 b1)).
  split; [now apply collide_impulse | ].
  pose proof (live_mass_pos b1 H1) as Hm1.
  pose proof (live_mass_pos b2 H2) as Hm2.
  pose proof (separation_square_pos _ _ Hpos) as HD.
  pose proof (separation_square_pos _ _ (not_eq_sym Hpos)) as HD'.
  simpl. unfold Ball.getKineticEnergy, impulseVelocity, Ball.getMass in *.
  destruct b1 as [[px1 py1] [vx1 vy1] col1 r1 k1].
  destruct b2 as [[px2 py2] [vx2 vy2] col2 r2 k2].
  simpl in *.
  set (m1 := k1 * PI * (r1 * (r1 * 1))) in *.
  set (m2 := k2 * PI * (r2 * (r2 * 1))) in *.
  unfold Vector2d.magnitudeSquare, Vector2d.innerProduct. simpl.
  field. repeat split; lra.
Qed.

Lemma collide_conserves_kinetic_energy_witness :
  exists b1' b2',
    collide leftBall rightBall = Some (b1', b2')
    /\ getKineticEnergy b1' + getKineticEnergy b2'
       = getKineticEnergy leftBall + getKineticEnergy rightBall.
Proof.
  exact (collide_conserves_kinetic_energy leftBall rightBall
           live_leftBall live_rightBall leftBall_rightBall_apart).
Defined.

(** X12: [collide] turns round the component of the relative velocity along
    the line of centres and keeps the component across it. *)
Theorem collide_reverses_normal_velocity (b1 b2 : Ball.t) :
  live b1 -> live b2 -> Ball.position b1 <> Ball.position b2 ->
  exists b1' b2',
    collide b1 b2 = Some (b1', b2')
    /\ (let d := Vector2d.minus (Ball.position b1) (Ball.position b2) in
        let across := Vector2d.mk (- Vector2d.y d) (Vector2d.x d) in
        Vector2d.innerProduct
          (Vector2d.minus (Ball.velocity b1') (Ball.velocity b2')) d
        = - Vector2d.innerProduct
              (Vector2d.minus (Ball.velocity b1) (Ball.velocity b2)) d
        /\ Vector2d.innerProduct
             (Vector2d.minus (Ball.velocity b1') (Ball.velocity b2')) across
           = Vector2d.innerProduct
               (Vector2d.minus (Ball.velocity b1) (Ball.velocity b2)) across).
Proof.
  intros H1 H2 Hpos.
  exists (Ball.set_velocity b1 (impulseVelocity b1 b2)),
         (Ball.set_velocity b2 (impulseVelocity b2 b1)).
  split; [now apply collide_impulse | ].
  pose proof (live_mass_pos b1 H1) as Hm1.
  pose proof (live_mass_pos b2 H2) as Hm2.
  pose proof (separation_square_pos _ _ Hpos) as HD.
  pose proof (separation_square_pos _ _ (not_eq_sym Hpos)) as HD'.
  simpl. unfold impulseVelocity, Ball.getMass in *.
  destruct b1 as [[px1 py1] [vx1 vy1] col1 r1 k1].
  destruct b2 as [[px2 py2] [vx2 vy2] col2 r2 k2].
  simpl in *.
  set (m1 := k1 * PI * (r1 * (r1 * 1))) in *.
  set (m2 := k2 * PI * (r2 * (r2 * 1))) in *.
  unfold Vector2d.innerProduct. simpl.
  split; field; repeat split; lra.
Qed.

Lemma collide_reverses_normal_velocity_witness :
  exists b1' b2',
    collide leftBall rightBall = Some (b1', b2')
    /\ (let d := Vector2d.minus (Ball.position leftBall)
                   (Ball.position rightBall) in
        let across := Vector2d.mk (- Vector2d.y d) (Vector2d.x d) in
        Vector2d.innerProduct
          (Vector2d.minus (Ball.velocity b1') (Ball.velocity b2')) d
        = - Vector2d.innerProduct
              (Vector2d.minus (Ball.velocity leftBall)
                 (Ball.velocity rightBall)) d
        /\ Vector2d.innerProduct
             (Vector2d.minus (Ball.velocity b1') (Ball.velocity b2')) across
           = Vector2d.innerProduct
               (Vector2d.minus (Ball.velocity leftBall)
                  (Ball.velocity rightBall)) across).
Proof.
  exact (collide_reverses_normal_velocity leftBall rightBall
           live_leftBall live_rightBall leftBall_rightBall_apart).
Defined.

(** X13: Resolving the same pair a second time, with the positions as they
    were, undoes the first resolution: both balls get back the
    velocities they had. *)
Theorem collide_twice_restores (b1 b2 : Ball.t) :
  live b1 -> live b2 -> Ball.position b1 <> Ball.position b2 ->
  exists b1' b2',
    collide b1 b2 = Some (b1', b2')
    /\ collide b1' b2' = Some (b1, b2).
Proof.
  intros H1 H2 Hpos.
  exists (Ball.set_velocity b1 (impulseVelocity b1 b2)),
         (Ball.set_velocity b2 (impulseVelocity b2 b1)).
  split; [now apply collide_impulse | ].
  rewrite collide_impulse by assumption.
  pose proof (live_mass_pos b1 H1) as Hm1.
  pose proof (live_mass_pos b2 H2) as Hm2.
  pose proof (separation_square_pos _ _ Hpos) as HD.
  pose proof (separation_square_pos _ _ (not_eq_sym Hpos)) as HD'.
  unfold impulseVelocity, Ball.getMass in *.
  destruct b1 as [[px1 py1] [vx1 vy1] col1 r1 k1].
  destruct b2 as [[px2 py2] [vx2 vy2] col2 r2 k2].
  unfold Ball.set_velocity. simpl in *.
  set (m1 := k1 * PI * (r1 * (r1 * 1))) in *.
  set (m2 := k2 * PI * (r2 * (r2 * 1))) in *.
  do 2 f_equal; f_equal; f_equal; field; repeat split; lra.
Qed.

Lemma collide_twice_restores_witness :
  exists b1' b2',
    collide leftBall rightBall = Some (b1', b2')
    /\ collide b1' b2' = Some (leftBall, rightBall).
Proof.
  exact (collide_twice_restores leftBall rightBall
           live_leftBall live_rightBall leftBall_rightBall_apart).
Defined.

(** X14: The order in which the two balls are given to [collide] does not
    change what happens to either of them. *)
Theorem collide_order_irrelevant (b1 b2 : Ball.t) :
  live b1 -> live b2 -> Ball.position b1 <> Ball.position b2 ->
  exists b1' b2',
    collide b1 b2 = Some (b1', b2') /\ collide b2 b1 = Some (b2', b1').
Proof.
  intros H1 H2 Hpos.
  exists (Ball.set_velocity b1 (elasticVelocity b1 b2)),
         (Ball.set_velocity b2 (elasticVelocity b2 b1)).
  split; apply collide_resolved; auto.
Qed.

Lemma collide_order_irrelevant_witness :
  exists b1' b2',
    collide leftBall rightBall = Some (b1', b2')
    /\ collide rightBall leftBall = Some (b2', b1').
Proof.
  exact (collide_order_irrelevant leftBall rightBall
           live_leftBall live_rightBall leftBall_rightBall_apart).
Defined.

(** X15: The two scale factors of a pair of live balls lie strictly between 0
    and 2 and add up to 2; they are both 1 when the masses are equal. *)
Theorem getCollisionScaleFactor_pair (b1 b2 : Ball.t) :
  live b1 -> live b2 ->
  exists f12 f21,
    getCollisionScaleFactor b1 b2 = Some f12
    /\ getCollisionScaleFactor b2 b1 = Some f21
    /\ 0 < f12 < 2 /\ 0 < f21 < 2
    /\ f12 + f21 = 2
    /\ (getMass b1 = getMass b2 -> f12 = 1 /\ f21 = 1).
Proof.
  intros H1 H2.
  pose proof (live_mass_pos b1 H1) as Hm1.
  pose proof (live_mass_pos b2 H2) as Hm2.
  unfold getCollisionScaleFactor. simpl.
  set (m1 := Ball.getMass b1) in *. set (m2 := Ball.getMass b2) in *.
  exists (2 * m2 / (m1 + m2)), (2 * m1 / (m2 + m1)).
  rewrite !div_nonzero by lra.
  assert (Hinv : 0 < / (m1 + m2)) by (apply Rinv_0_lt_compat; lra).
  assert (E12 : 2 * m2 / (m1 + m2) = 2 - 2 * m1 * / (m1 + m2))
    by (field; lra).
  assert (E21 : 2 * m1 / (m2 + m1) = 2 * m1 * / (m1 + m2))
    by (field; lra).
  assert (0 < m1 * / (m1 + m2)) by (apply Rmult_lt_0_compat; lra).
  assert (m1 * / (m1 + m2) < 1).
  { apply (Rmult_lt_reg_r (m1 + m2)); [lra | ].
    rewrite Rmult_assoc, Rinv_l by lra. lra. }
  repeat split; try reflexivity; try (rewrite ?E12, ?E21; lra).
  all: match goal with
       | Heq : ?u = ?v |- _ = 1 => rewrite Heq; field; lra
       end.
Qed.

Lemma getCollisionScaleFactor_pair_witness :
  exists f12 f21,
    getCollisionScaleFactor leftBall rightBall = Some f12
    /\ getCollisionScaleFactor rightBall leftBall = Some f21
    /\ 0 < f12 < 2 /\ 0 < f21 < 2
    /\ f12 + f21 = 2
    /\ (getMass leftBall = getMass rightBall -> f12 = 1 /\ f21 = 1).
Proof.
  exact (getCollisionScaleFactor_pair leftBall rightBall
           live_leftBall live_rightBall).
Defined.

(** X16: [collideBy] leaves the reals, its divisions having a zero divisor,
    exactly when the two balls are at the same position or their masses
    add up to zero. *)
Theorem collideBy_undefined_iff (self other : Ball.t) :
  Ball.collideBy self other = None
  <-> Ball.position self = Ball.position other
      \/ getMass self + getMass other = 0.
Proof.
  split.
  - intros Hnone.
    destruct (Req_dec_T (getMass self + getMass other) 0) as [Hm | Hm];
      [now right | left].
    destruct (Req_dec_T
                (Vector2d.norm
                   (Vector2d.minus (Ball.position self) (Ball.position other)))
                0) as [Hn | Hn].
    + apply minus_self_iff, norm_zero_iff. exact Hn.
    + exfalso.
      unfold Ball.collideBy, getCollisionScaleFactor in Hnone.
      rewrite div_nonzero in Hnone by exact Hm.
      rewrite normalize_nonzero in Hnone by exact Hn.
      rewrite div_nonzero in Hnone by exact Hn.
      discriminate.
  - intros [Hp | Hm].
    + unfold Ball.collideBy.
      destruct (getCollisionScaleFactor self other); [ | reflexivity].
      assert (Hz : Vector2d.minus (Ball.position self) (Ball.position other)
                   = Vector2d.mk 0 0) by (now apply minus_self_iff).
      rewrite Hz.
      now rewrite normalize_zero.
    + unfold Ball.collideBy, getCollisionScaleFactor.
      now rewrite div_by_zero by exact Hm.
Qed.

End CollisionFacts.

(** ** Overlap correction *)

Section OverlapFacts.

Lemma advance_advance (s t : R) (b : Ball.t) :
  advance t (advance s b) = advance (s + t) b.
Proof.
  destruct b as [[px py] [vx vy] col r k].
  unfold advance, Ball.set_position, Vector2d.addAssign, Vector2d.scaleBy.
  simpl. do 2 f_equal; ring.
Qed.

Lemma advance_zero (b : Ball.t) : advance 0 b = b.
Proof.
  destruct b as [[px py] [vx vy] col r k].
  unfold advance, Ball.set_position, Vector2d.addAssign, Vector2d.scaleBy.
  simpl. do 2 f_equal; ring.
Qed.

Lemma fold_applyRoot_advance (l : list number) (s : R) (b1 b2 : Ball.t) :
  fold_left applyRoot l (advance s b1, advance s b2)
  = (advance (s + acceptedSum l) b1, advance (s + acceptedSum l) b2).
Proof.
  revert s. induction l as [ | [t | ] l IH]; intros s; simpl.
  - now rewrite Rplus_0_r.
  - destruct (ltb (-1) t && ltb t 1) eqn:E.
    + change (fold_left applyRoot l
                (advance t (advance s b1), advance t (advance s b2))
              = (advance (s + (t + acceptedSum l)) b1,
                 advance (s + (t + acceptedSum l)) b2)).
      rewrite !advance_advance, IH. now rewrite Rplus_assoc.
    + apply IH.
  - apply IH.
Qed.

Lemma numberOfRealRoots_le_2 (q : QuadraticEquation.t) :
  (QuadraticEquation.numberOfRealRoots q <= 2)%nat.
Proof.
  unfold QuadraticEquation.numberOfRealRoots.
  destruct (ltb _ 0); [lia | ]. destruct (Req_dec_T _ 0); lia.
Qed.

Lemma acceptedSum_step (r : number) (l : list number) (lo hi : R) :
  lo <= acceptedSum l <= hi -> lo - 1 < acceptedSum (r :: l) < hi + 1.
Proof.
  intros Hacc. change (acceptedSum (r :: l)) with
    (match r with
     | Some t => if ltb (-1) t && ltb t 1 then t + acceptedSum l
                 else acceptedSum l
     | None => acceptedSum l
     end).
  destruct r as [t | ]; [ | lra].
  destruct (ltb (-1) t) eqn:E1; simpl; [ | lra].
  destruct (ltb t 1) eqn:E2; [ | lra].
  apply ltb_lt in E1, E2. lra.
Qed.

Lemma acceptedSum_bound (l : list number) :
  (length l <= 2)%nat -> -2 < acceptedSum l < 2.
Proof.
  assert (H0 : 0 <= acceptedSum [] <= 0) by (simpl; lra).
  destruct l as [ | r1 [ | r2 [ | r3 l]]]; intros Hlen.
  - lra.
  - pose proof (acceptedSum_step r1 [] _ _ H0). lra.
  - pose proof (acceptedSum_step r2 [] _ _ H0) as H1.
    assert (H1' : -1 <= acceptedSum [r2] <= 1) by lra.
    pose proof (acceptedSum_step r1 [r2] _ _ H1'). lra.
  - simpl in Hlen. lia.
Qed.

Lemma deoverlap_advance (b1 b2 : Ball.t) :
  deoverlap b1 b2
  = (advance (acceptedSum (QuadraticEquation.roots
                             (overlapEquation (rewind b1) (rewind b2))))
       (rewind b1),
     advance (acceptedSum (QuadraticEquation.roots
                             (overlapEquation (rewind b1) (rewind b2))))
       (rewind b2)).
Proof.
  rewrite deoverlap_rewinds_first.
  rewrite <- (advance_zero (rewind b1)) at 2.
  rewrite <- (advance_zero (rewind b2)) at 2.
  rewrite fold_applyRoot_advance. now rewrite Rplus_0_l.
Qed.

(** X17: [deoverlap] moves both balls along their own velocities by the same
    number of ticks, namely -1 plus the sum s of the roots it accepts,
    with -2 < s < 2; it changes no velocity, radius, colour or mass
    coefficient. *)
Theorem deoverlap_displacement (b1 b2 : Ball.t) :
  let s :=
    acceptedSum
      (QuadraticEquation.roots (overlapEquation (rewind b1) (rewind b2))) in
  -2 < s < 2
  /\ deoverlap b1 b2 = (advance s (rewind b1), advance s (rewind b2))
  /\ deoverlap b1 b2 = (advance (s - 1) b1, advance (s - 1) b2)
  /\ Ball.velocity (fst (deoverlap b1 b2)) = Ball.velocity b1
  /\ Ball.velocity (snd (deoverlap b1 b2)) = Ball.velocity b2
  /\ Ball.radius (fst (deoverlap b1 b2)) = Ball.radius b1
  /\ Ball.radius (snd (deoverlap b1 b2)) = Ball.radius b2.
Proof.
  intros s.
  assert (Hde : deoverlap b1 b2 = (advance s (rewind b1), advance s (rewind b2)))
    by apply deoverlap_advance.
  assert (Hrew : forall b, rewind b = advance (-1) b).
  { intros [[px py] [vx vy] col r k].
    unfold rewind, advance, Ball.set_position, Vector2d.addAssign,
      Vector2d.minusAssign, Vector2d.scaleBy. simpl. do 2 f_equal; ring. }
  split; [ | split; [exact Hde | split]].
  - apply acceptedSum_bound. rewrite length_roots.
    apply numberOfRealRoots_le_2.
  - rewrite Hde, !Hrew, !advance_advance.
    now replace (-1 + s) with (s - 1) by ring.
  - rewrite Hde. repeat split.
Qed.

(** X18: When the solver returns two real roots and both lie in (-1, 1), the
    loop applies both, one after the other: the balls end at the rewound
    position displaced by t1 + t2 = -b / a ticks, not at either
    root. *)
Theorem deoverlap_applies_both_roots (b1 b2 : Ball.t) (t1 t2 : R) :
  let qe := overlapEquation (rewind b1) (rewind b2) in
  QuadraticEquation.roots qe = [Some t1; Some t2] ->
  -1 < t1 < 1 -> -1 < t2 < 1 ->
  deoverlap b1 b2
  = (advance (t1 + t2) (rewind b1), advance (t1 + t2) (rewind b2))
  /\ t1 + t2 = - QuadraticEquation.b qe / QuadraticEquation.a qe.
Proof.
  intros qe Hroots [Hl1 Hh1] [Hl2 Hh2]. split.
  - rewrite deoverlap_rewinds_first. fold qe. rewrite Hroots.
    cbn [fold_left].
    rewrite applyRoot_accepted by lra. rewrite applyRoot_accepted by lra.
    now rewrite !advance_advance.
  - destruct (Req_dec_T (QuadraticEquation.a qe) 0) as [Ha | Ha].
    + exfalso.
      destruct (Req_dec_T (QuadraticEquation.b qe) 0) as [Hb | Hb].
      * assert (Hd : QuadraticEquation.delta qe = 0)
          by (unfold QuadraticEquation.delta; rewrite Ha, Hb; ring).
        rewrite roots_zero in Hroots by assumption. discriminate.
      * assert (Hd : 0 < QuadraticEquation.delta qe).
        { unfold QuadraticEquation.delta. rewrite Ha.
          pose proof (Rsqr_pos_lt _ Hb) as Hsq. unfold Rsqr in Hsq.
          replace (QuadraticEquation.b qe ^ 2 - 4 * 0 * QuadraticEquation.c qe)
            with (QuadraticEquation.b qe * QuadraticEquation.b qe) by ring.
          exact Hsq. }
        rewrite roots_pos in Hroots by lra.
        rewrite !div_by_zero in Hroots by (rewrite Ha; ring). discriminate.
    + destruct (Rtotal_order (QuadraticEquation.delta qe) 0) as [Hd | [Hd | Hd]].
      * rewrite roots_neg in Hroots by assumption. discriminate.
      * rewrite roots_zero in Hroots by assumption. discriminate.
      * rewrite roots_two_finite in Hroots by assumption.
        remember (QuadraticEquation.a qe) as qa.
        remember (QuadraticEquation.b qe) as qb.
        remember (sqrt (QuadraticEquation.delta qe)) as qs.
        injection Hroots as <- <-. field. assumption.
Qed.

Lemma passing_small_roots :
  QuadraticEquation.roots (overlapEquation (rewind passingBall) (rewind smallBall))
  = [Some (3 / 4); Some (- (3 / 4))].
Proof.
  apply (roots_two_values _ (3 / 2));
    unfold passingBall, smallBall; kernel_arith; real_arith.
Qed.

Lemma deoverlap_applies_both_roots_witness :
  deoverlap passingBall smallBall
  = (advance (3 / 4 + - (3 / 4)) (rewind passingBall),
     advance (3 / 4 + - (3 / 4)) (rewind smallBall))
  /\ 3 / 4 + - (3 / 4)
     = - QuadraticEquation.b
           (overlapEquation (rewind passingBall) (rewind smallBall))
       / QuadraticEquation.a
           (overlapEquation (rewind passingBall) (rewind smallBall)).
Proof.
  apply (deoverlap_applies_both_roots passingBall smallBall
           (3 / 4) (- (3 / 4)) passing_small_roots); lra.
Defined.

Lemma position_advance_rewind_update (width height s : R) (b : Ball.t) :
  let u := Ball.update width height b in
  Ball.position (advance s (rewind u))
  = Vector2d.mk
      (Vector2d.x (Ball.position b) + Vector2d.x (Ball.velocity u) * s)
      (Vector2d.y (Ball.position b) + Vector2d.y (Ball.velocity u) * s).
Proof.
  intros u. unfold advance, rewind. cbn [Ball.set_position Ball.position Ball.velocity].
  unfold u at 1 3. rewrite update_position. fold u.
  unfold Vector2d.addAssign, Vector2d.minusAssign, Vector2d.scaleBy,
    Vector2d.add. cbn [Vector2d.x Vector2d.y].
  f_equal; ring.
Qed.

(** X19: Integration followed by overlap correction moves each ball, from
    where it was before integration, by s ticks of the velocity that
    integration left it with, s being the sum of the accepted roots; with
    no accepted root the ball is back where it was before integration. *)
Theorem update_then_deoverlap (width height : R) (b1 b2 : Ball.t) :
  let u1 := Ball.update width height b1 in
  let u2 := Ball.update width height b2 in
  let s :=
    acceptedSum
      (QuadraticEquation.roots (overlapEquation (rewind u1) (rewind u2))) in
  Ball.position (fst (deoverlap u1 u2))
  = Vector2d.mk
      (Vector2d.x (Ball.position b1) + Vector2d.x (Ball.velocity u1) * s)
      (Vector2d.y (Ball.position b1) + Vector2d.y (Ball.velocity u1) * s)
  /\ Ball.position (snd (deoverlap u1 u2))
     = Vector2d.mk
         (Vector2d.x (Ball.position b2) + Vector2d.x (Ball.velocity u2) * s)
         (Vector2d.y (Ball.position b2) + Vector2d.y (Ball.velocity u2) * s)
  /\ (s = 0 ->
      Ball.position (fst (deoverlap u1 u2)) = Ball.position b1
      /\ Ball.position (snd (deoverlap u1 u2)) = Ball.position b2).
Proof.
  intros u1 u2 s.
  assert (H1 : Ball.position (fst (deoverlap u1 u2))
               = Vector2d.mk
                   (Vector2d.x (Ball.position b1) + Vector2d.x (Ball.velocity u1) * s)
                   (Vector2d.y (Ball.position b1) + Vector2d.y (Ball.velocity u1) * s)).
  { rewrite deoverlap_advance. cbn [fst]. fold s.
    apply position_advance_rewind_update. }
  assert (H2 : Ball.position (snd (deoverlap u1 u2))
               = Vector2d.mk
                   (Vector2d.x (Ball.position b2) + Vector2d.x (Ball.velocity u2) * s)
                   (Vector2d.y (Ball.position b2) + Vector2d.y (Ball.velocity u2) * s)).
  { rewrite deoverlap_advance. cbn [snd]. fold s.
    apply position_advance_rewind_update. }
  split; [exact H1 | split; [exact H2 | ]].
  intros Hs. rewrite H1, H2, Hs.
  destruct (Ball.position b1) as [x1 y1], (Ball.position b2) as [x2 y2].
  simpl. split; f_equal; ring.
Qed.

End OverlapFacts.

(** ** Collision detection *)

Section DetectionFacts.

Lemma collideBy_same_position (self other : Ball.t) :
  Ball.position self = Ball.position other ->
  Ball.collideBy self other = None.
Proof.
  intros Hp. unfold Ball.collideBy.
  destruct (getCollisionScaleFactor self other); [ | reflexivity].
  rewrite (proj2 (minus_self_iff _ _) Hp). now rewrite normalize_zero.
Qed.

Lemma collide_same_position (b1 b2 : Ball.t) :
  Ball.position b1 = Ball.position b2 -> collide b1 b2 = None.
Proof.
  intros Hp. unfold collide. now rewrite collideBy_same_position.
Qed.

Lemma live_set_velocity (b : Ball.t) (v : Vector2d.t) :
  live b -> live (Ball.set_velocity b v).
Proof. intros H. exact H. Qed.

Lemma live_set_color (b : Ball.t) (c : string) :
  live b -> live (Ball.set_color b c).
Proof. intros H. exact H. Qed.

Lemma live_advance (b : Ball.t) (t : R) : live b -> live (advance t b).
Proof. intros H. exact H. Qed.

(** What [collide] keeps, for live balls at distinct positions. *)
Lemma collide_pairConserved (b1 b2 : Ball.t) :
  live b1 -> live b2 -> Ball.position b1 <> Ball.position b2 ->
  exists c1 c2,
    collide b1 b2 = Some (c1, c2)
    /\ Ball.position c1 = Ball.position b1
    /\ Ball.position c2 = Ball.position b2
    /\ Ball.color c1 = Ball.color b1
    /\ Ball.color c2 = Ball.color b2
    /\ pairConserved b1 b2 c1 c2.
Proof.
  intros H1 H2 Hpos.
  exists (Ball.set_velocity b1 (impulseVelocity b1 b2)),
         (Ball.set_velocity b2 (impulseVelocity b2 b1)).
  split; [now apply collide_impulse | ].
  do 4 (split; [reflexivity | ]).
  do 4 (split; [reflexivity | ]).
  pose proof (live_mass_pos b1 H1) as Hm1.
  pose proof (live_mass_pos b2 H2) as Hm2.
  pose proof (separation_square_pos _ _ Hpos) as HD.
  pose proof (separation_square_pos _ _ (not_eq_sym Hpos)) as HD'.
  simpl.
  unfold Ball.getMomentum, Ball.getKineticEnergy, impulseVelocity,
    Ball.getMass in *.
  destruct b1 as [[px1 py1] [vx1 vy1] col1 r1 k1].
  destruct b2 as [[px2 py2] [vx2 vy2] col2 r2 k2].
  simpl in *.
  set (m1 := k1 * PI * (r1 * (r1 * 1))) in *.
  set (m2 := k2 * PI * (r2 * (r2 * 1))) in *.
  unfold Vector2d.add, Vector2d.scaleBy, Vector2d.magnitudeSquare,
    Vector2d.innerProduct. simpl.
  split; [f_equal | ]; field; repeat split; lra.
Qed.



(** X20: The loop body of [collisionDetect] on a pair of live balls: balls
    that are not within contact distance are left as they are; balls
    that are, and whose corrected positions differ, both get the colour
    drawn, keep their radii, the sum of their momenta and the sum of
    their kinetic energies, and sit where [deoverlap] put them; if the
    corrected positions coincide the velocities leave the reals. *)
Theorem collisionDetectWith_effect (rgb : string) (b1 b2 : Ball.t) :
  live b1 -> live b2 ->
  let hit :=
    Vector2d.distanceTo (Ball.position b1) (Ball.position b2)
    < Ball.radius b1 + Ball.radius b2 in
  let d := deoverlap b1 b2 in
  (~ hit -> collisionDetectWith rgb b1 b2 = Some (b1, b2))
  /\ (hit -> Ball.position (fst d) = Ball.position (snd d) ->
      collisionDetectWith rgb b1 b2 = None)
  /\ (hit -> Ball.position (fst d) <> Ball.position (snd d) ->
      exists c1 c2,
        collisionDetectWith rgb b1 b2 = Some (c1, c2)
        /\ Ball.color c1 = rgb /\ Ball.color c2 = rgb
        /\ Ball.position c1 = Ball.position (fst d)
        /\ Ball.position c2 = Ball.position (snd d)
        /\ pairConserved b1 b2 c1 c2).
Proof.
  intros H1 H2 hit d. split; [ | split].
  - intros Hmiss. unfold collisionDetectWith.
    now rewrite (proj2 (ltb_nlt _ _) Hmiss).
  - intros Hhit Hsame. unfold collisionDetectWith.
    rewrite (proj2 (ltb_lt _ _) Hhit).
    fold d. destruct d as [d1 d2]. cbn [fst snd] in Hsame.
    now rewrite collide_same_position.
  - intros Hhit Hapart.
    assert (Hd : d = (advance (acceptedSum
                         (QuadraticEquation.roots
                            (overlapEquation (rewind b1) (rewind b2))))
                        (rewind b1),
                      advance (acceptedSum
                         (QuadraticEquation.roots
                            (overlapEquation (rewind b1) (rewind b2))))
                        (rewind b2)))
      by apply deoverlap_advance.
    set (s := acceptedSum _) in Hd.
    rewrite Hd in Hapart. cbn [fst snd] in Hapart.
    destruct (collide_pairConserved (advance s (rewind b1))
                (advance s (rewind b2)))
      as (e1 & e2 & E & Hp1 & Hp2 & _ & _ & Hc); try assumption.
    exists (Ball.set_color e1 rgb), (Ball.set_color e2 rgb).
    split.
    + unfold collisionDetectWith. rewrite (proj2 (ltb_lt _ _) Hhit).
      fold d. rewrite Hd. now rewrite E.
    + rewrite Hd. cbn [fst snd]. repeat split; try assumption; apply Hc.
Qed.

Lemma slow_still_hit :
  Vector2d.distanceTo (Ball.position slowBall) (Ball.position stillBall)
  < Ball.radius slowBall + Ball.radius stillBall.
Proof.
  kernel_arith. rewrite (sqrt_of_square 1) by lra. lra.
Qed.

Lemma slow_still_corrected_apart :
  Ball.position (fst (deoverlap slowBall stillBall))
  <> Ball.position (snd (deoverlap slowBall stillBall)).
Proof.
  rewrite deoverlap_slow_still. intros H.
  apply (f_equal Vector2d.x) in H. revert H. kernel_arith. lra.
Qed.

Lemma collisionDetectWith_effect_witness :
  exists c1 c2,
    collisionDetectWith "rgb(1,2,3)" slowBall stillBall = Some (c1, c2)
    /\ Ball.color c1 = "rgb(1,2,3)"%string
    /\ Ball.color c2 = "rgb(1,2,3)"%string
    /\ Ball.position c1 = Ball.position (fst (deoverlap slowBall stillBall))
    /\ Ball.position c2 = Ball.position (snd (deoverlap slowBall stillBall))
    /\ pairConserved slowBall stillBall c1 c2.
Proof.
  assert (L1 : live slowBall) by (split; simpl; lra).
  assert (L2 : live stillBall) by (split; simpl; lra).
  exact (proj2 (proj2 (collisionDetectWith_effect "rgb(1,2,3)"
                         slowBall stillBall L1 L2))
           slow_still_hit slow_still_corrected_apart).
Defined.

End DetectionFacts.

(** ** The array of balls *)

Section WorldFacts.

Lemma length_replaceAt (l : World) (i : nat) (c : Ball.t) :
  length (replaceAt l i c) = length l.
Proof.
  revert i. induction l as [ | a l IH]; intros [ | i]; simpl; auto.
Qed.


Lemma replaceAt_same (l : World) (i : nat) (b : Ball.t) :
  nth_error l i = Some b -> replaceAt l i b = l.
Proof.
  revert i. induction l as [ | a l IH]; intros [ | i]; simpl; try easy.
  - now intros [= ->].
  - intros H. f_equal. now apply IH.
Qed.







Lemma fold_turn_fixed (A : Type) (turn : option A -> nat -> option A)
  (l : list nat) (a : A) :
  (forall j, In j l -> turn (Some a) j = Some a) ->
  fold_left turn l (Some a) = Some a.
Proof.
  induction l as [ | j l IH]; simpl; intros H; [reflexivity | ].
  rewrite H by now left. apply IH. intros k Hk. apply H. now right.
Qed.






(** X22: [collisionDetect] changes nothing when no other ball is within
    contact distance of the ball it is called on; in particular a ball
    never collides with itself. *)
Theorem collisionDetect_no_contact (rgb : nat -> string) (this : nat)
  (balls : World) :
  (forall j b1 b2, j <> this ->
     nth_error balls this = Some b1 -> nth_error balls j = Some b2 ->
     ~ Vector2d.distanceTo (Ball.position b1) (Ball.position b2)
       < Ball.radius b1 + Ball.radius b2) ->
  collisionDetect rgb this balls = Some balls.
Proof.
  intros Hmiss. unfold collisionDetect. apply fold_turn_fixed.
  intros j _. unfold collisionDetectTurn.
  destruct (Nat.eqb this j) eqn:Eij; [reflexivity | ].
  apply Nat.eqb_neq in Eij.
  destruct (nth_error balls this) as [b1 | ] eqn:E1; [ | reflexivity].
  destruct (nth_error balls j) as [b2 | ] eqn:E2; [ | reflexivity].
  unfold collisionDetectWith.
  rewrite (proj2 (ltb_nlt _ _)) by (apply (Hmiss j); auto).
  rewrite (replaceAt_same balls this b1) by assumption.
  now rewrite (replaceAt_same balls j b2) by assumption.
Qed.



Lemma collisionDetect_no_contact_witness :
  collisionDetect (fun _ => "rgb(1,2,3)"%string) 0 [leftBall; rightBall]
  = Some [leftBall; rightBall].
Proof.
  apply (collisionDetect_no_contact (fun _ => "rgb(1,2,3)"%string) 0
           [leftBall; rightBall]).
  intros [ | [ | [ | j]]] b1 b2 Hj H1 H2; try (now elim Hj);
    cbn [nth_error] in H1, H2; try discriminate.
  injection H1 as <-. injection H2 as <-.
  kernel_arith. rewrite (sqrt_of_square 20) by lra. lra.
Defined.







End WorldFacts.

(** ** Random numbers and the initial balls *)

Section RandomFacts.

Open Scope Z_scope.

Lemma random_between (u : R) (min max : Z) :
  (0 <= u < 1)%R -> min <= max -> min <= random u min max <= max.
Proof.
  intros [Hu0 Hu1] Hmm.
  assert (Hn : (1 <= IZR (max - min + 1))%R) by (apply IZR_le; lia).
  unfold random.
  assert (Hlo : 0 <= Zfloor (u * IZR (max - min + 1))).
  { apply Zfloor_lub. simpl. apply Rmult_le_pos; lra. }
  assert (Hhi : Zfloor (u * IZR (max - min + 1)) < max - min + 1).
  { apply lt_IZR.
    apply Rle_lt_trans with (u * IZR (max - min + 1))%R.
    - apply Zfloor_bound.
    - rewrite <- (Rmult_1_l (IZR (max - min + 1))) at 2.
      apply Rmult_lt_compat_r; lra. }
  lia.
Qed.

(** X24: For integers min <= max and a draw 0 <= u < 1, [random] returns an
    integer between min and max, both included; and every such integer
    is returned for some draw. *)
Theorem random_range (u : R) (min max : Z) :
  (0 <= u < 1)%R -> min <= max ->
  min <= random u min max <= max
  /\ (forall k, min <= k <= max ->
        exists v, (0 <= v < 1)%R /\ random v min max = k).
Proof.
  intros Hu Hmm.
  assert (Hn : (1 <= IZR (max - min + 1))%R) by (apply IZR_le; lia).
  split.
  - now apply random_between.
  - intros k Hk.
    exists (IZR (k - min) / IZR (max - min + 1))%R.
    assert (H0 : (0 <= IZR (k - min))%R) by (apply IZR_le; lia).
    assert (H1 : (IZR (k - min) < IZR (max - min + 1))%R)
      by (apply IZR_lt; lia).
    split; [split | ].
    + apply Rmult_le_pos; [lra | ].
      apply Rlt_le, Rinv_0_lt_compat. lra.
    + apply (Rmult_lt_reg_r (IZR (max - min + 1))); [lra | ].
      unfold Rdiv. rewrite Rmult_assoc, Rinv_l by lra. lra.
    + unfold random.
      replace (IZR (k - min) / IZR (max - min + 1) * IZR (max - min + 1))%R
        with (IZR (k - min)) by (field; lra).
      rewrite ZfloorZ. lia.
Qed.

Lemma random_range_witness : 10 <= random (1 / 2) 10 20 <= 20.
Proof.
  apply (random_range (1 / 2) 10 20); [lra | lia].
Defined.

Lemma randomBall_wellPlaced (rnd : nat -> R) (width height : Z) :
  (forall k, (0 <= rnd k < 1)%R) -> 40 <= width -> 40 <= height ->
  wellPlaced width height (randomBall rnd width height).
Proof.
  intros Hrnd Hw Hh. unfold randomBall.
  pose proof (random_between (rnd 0%nat) 10 20 (Hrnd _) ltac:(lia)) as Hs.
  set (size := random (rnd 0%nat) 10 20) in *.
  pose proof (random_between (rnd 1%nat) (0 + size) (width - size)
                (Hrnd _) ltac:(lia)) as Hx.
  pose proof (random_between (rnd 2%nat) (0 + size) (height - size)
                (Hrnd _) ltac:(lia)) as Hy.
  pose proof (random_between (rnd 3%nat) (-7) 7 (Hrnd _) ltac:(lia)) as Hvx.
  pose proof (random_between (rnd 4%nat) (-7) 7 (Hrnd _) ltac:(lia)) as Hvy.
  set (x := random (rnd 1%nat) _ _) in *.
  set (y := random (rnd 2%nat) _ _) in *.
  set (vx := random (rnd 3%nat) _ _) in *.
  set (vy := random (rnd 4%nat) _ _) in *.
  unfold wellPlaced, live, Ball.new. simpl.
  repeat split; try lra;
    try (apply IZR_le; lia);
    try (apply IZR_lt; lia);
    try (rewrite <- minus_IZR; apply IZR_le; lia);
    try (rewrite <- plus_IZR; apply IZR_le; lia).
Qed.

Lemma initializeBallsFrom_length (turns : nat) (rnd : nat -> R)
  (width height : Z) (balls : World) :
  (length balls + turns = 25)%nat ->
  length (initializeBallsFrom turns rnd width height balls) = 25%nat.
Proof.
  revert rnd balls. induction turns as [ | turns IH]; intros rnd balls Hlen.
  - simpl. lia.
  - simpl. destruct (Nat.ltb_spec (length balls) 25) as [Hlt | Hge]; [ | lia].
    apply IH. rewrite length_app. simpl. lia.
Qed.

Lemma initializeBallsFrom_wellPlaced (turns : nat) (rnd : nat -> R)
  (width height : Z) (balls : World) :
  (forall k, (0 <= rnd k < 1)%R) -> 40 <= width -> 40 <= height ->
  Forall (wellPlaced width height) balls ->
  Forall (wellPlaced width height)
    (initializeBallsFrom turns rnd width height balls).
Proof.
  intros Hrnd Hw Hh. revert rnd Hrnd balls.
  induction turns as [ | turns IH]; intros rnd Hrnd balls Hballs.
  - exact Hballs.
  - simpl. destruct (Nat.ltb (length balls) 25); [ | exact Hballs].
    apply IH; [intros k; apply Hrnd | ].
    apply Forall_app. split; [exact Hballs | ].
    constructor; [ | constructor].
    now apply randomBall_wellPlaced.
Qed.

(** X25: In a canvas at least 40 wide and high, [initializeBalls] stops with
    exactly 25 balls, whatever the draws; each has the mass coefficient
    10, a radius between 10 and 20, lies wholly inside the canvas, and
    has velocity components between -7 and 7. *)
Theorem initializeBalls_wellPlaced (rnd : nat -> R) (width height : Z) :
  (forall k, (0 <= rnd k < 1)%R) -> 40 <= width -> 40 <= height ->
  length (initializeBalls rnd width height) = 25%nat
  /\ Forall (wellPlaced width height) (initializeBalls rnd width height)
  /\ Forall live (initializeBalls rnd width height).
Proof.
  intros Hrnd Hw Hh.
  assert (Hall : Forall (wellPlaced width height)
                   (initializeBalls rnd width height)).
  { apply initializeBallsFrom_wellPlaced; auto. }
  split; [ | split].
  - now apply initializeBallsFrom_length.
  - exact Hall.
  - eapply Forall_impl; [ | exact Hall]. intros b Hb. apply Hb.
Qed.

Lemma initializeBalls_wellPlaced_witness :
  length (initializeBalls (fun _ => (1 / 2)%R) 800 600) = 25%nat
  /\ Forall (wellPlaced 800 600)
       (initializeBalls (fun _ => (1 / 2)%R) 800 600)
  /\ Forall live (initializeBalls (fun _ => (1 / 2)%R) 800 600).
Proof.
  apply (initializeBalls_wellPlaced (fun _ => (1 / 2)%R) 800 600);
    [intros _; lra | lia | lia].
Defined.

End RandomFacts.
